(** * app-tool: chart import and catalog reconciliation

    A shallow embedding of [main.go] (the KubeSphere app-tool): the chart
    uploader [uploadChart], the three reconciliation stage functions
    [updateAppStatus], [updateAppLabel], [updateVersionStatus], the
    orchestration in [run] and the start-up code in [main].

    The program is sequential and talks to three outside parties: HTTP
    servers (through the resty client), the cluster resource API (through
    the dynamic client) and the console log.  Every interaction is recorded
    in a trace of events; what the outside answers is given by oracles that
    see the whole history so far. *)

From stdpp Require Import base gmap strings list.
From Stdlib Require Import ZArith Lia.

Local Open Scope string_scope.
Local Open Scope list_scope.
Local Open Scope Z_scope.

(** ** Data model *)

(** Go's [error] interface value; [nil] is rendered by [option]. *)
Definition error := string.

(** A call returning [(value, err)]. *)
Inductive result (A : Type) : Type :=
| Ok (a : A)
| Err (e : error).
Arguments Ok {A} a.
Arguments Err {A} e.

(** [type AppRequest struct] *)
Record AppRequest := {
  RepoName : string;
  Package : string;
  CategoryName : string;
  Workspace : string;
  AppType : string;
}.

(** [schema.GroupVersionResource] *)
Record GroupVersionResource := {
  Group : string;
  Version : string;
  Resource : string;
}.

#[global] Instance GroupVersionResource_eq_dec : EqDecision GroupVersionResource.
Proof. solve_decision. Defined.

Definition versionGVR : GroupVersionResource :=
  {| Group := "application.kubesphere.io"; Version := "v2";
     Resource := "applicationversions" |}.

Definition appGVR : GroupVersionResource :=
  {| Group := "application.kubesphere.io"; Version := "v2";
     Resource := "applications" |}.

Definition mark : string := "openpitrix-import".

(** [metav1.ListOptions]: only the field the program sets. *)
Record ListOptions := { LabelSelector : string }.

(** One entry of the helm index ([repo.ChartVersion]): the fields the
    uploader reads. *)
Record ChartVersion := {
  Name : string;
  ChartVer : string;            (* entry.Version *)
  Deprecated : bool;
  URLs : list string;
}.

(** [unstructured.Unstructured]: the parts of the object the program
    touches.  [metaLabels = None] is an object without a [metadata.labels]
    field, for which [GetLabels] returns a nil map.  [status] holds the
    string fields under [status]. *)
Record Unstructured := {
  metaName : string;
  metaLabels : option (gmap string string);
  status : gmap string string;
}.

(** The server-side state of one object, keyed by its name in [Store]. *)
Record ObjState := {
  objLabels : option (gmap string string);
  objStatus : gmap string string;
}.

Record Store := {
  applications : gmap string ObjState;
  applicationversions : gmap string ObjState;
}.

(** ** HTTP (resty) *)

(** [resty.Client]: the settings [main] makes. *)
Record Client := {
  clientHeader : gmap string string;
  clientTimeout : Z;               (* milliseconds *)
}.

Record Request := {
  Method : string;
  URL : string;
  Header : gmap string string;
  Body : option AppRequest;
}.

(** [resty.Response].  [ResultAppName] is what [SetResult(&response)] decodes
    from the JSON body into [response.AppName]. *)
Record Response := {
  StatusCode : Z;
  RespBody : list Byte.byte;
  ResultAppName : string;
}.

(** The [(resp, err)] pair of [req.Get] / [req.Post]. *)
Inductive HttpResult :=
| TransportErr (e : error)
| Responded (r : Response).

(** resty's [Response.IsError]: [StatusCode() > 399]. *)
Definition IsError (r : Response) : bool := 399 <? StatusCode r.

(** ** Events, oracles and the world *)

Inductive Level := InfoLevel | WarnLevel | ErrorLevel | FatalLevel.

(** Arguments of a [Msgf] format string, kept unformatted. *)
Inductive Arg :=
| AStr (s : string)
| AInt (z : Z)
| AErr (e : error).

Inductive ApiCall :=
| CallList (gvr : GroupVersionResource) (opts : ListOptions)
| CallUpdate (gvr : GroupVersionResource) (obj : Unstructured)
| CallUpdateStatus (gvr : GroupVersionResource) (obj : Unstructured).

Inductive Event :=
| EvLog (lvl : Level) (fmt : string) (args : list Arg)
| EvPrintln (e : error)
| EvHTTP (req : Request) (res : HttpResult)
| EvSleep (ms : Z)
| EvApi (call : ApiCall) (err : option error).

(** What [uploadChart] gets from the helm libraries for [repoURL]. *)
Inductive IndexFetch :=
| RepoErr (e : error)          (* repo.NewChartRepository fails *)
| DownloadErr (e : error)      (* chartRepo.DownloadIndexFile fails *)
| LoadErr (e : error)          (* repo.LoadIndexFile fails *)
| Loaded (entries : list (string * list ChartVersion)).
    (* indexData.Entries, in the order the [range] over the Go map visits
       the packages (any order is possible) *)

(** What [initDynamicClient] gets from client-go. *)
Inductive ClientInit :=
| ConfigDie                    (* config.GetConfigOrDie exits *)
| NewForConfigErr (e : error)
| ClientReady.

(** The outside world.  Every oracle that can answer differently over time
    receives the history (the trace so far). *)
Record Env := {
  net : list Event -> Request -> HttpResult;
  (* what a request does to the catalog, server side *)
  ingest : list Event -> Request -> HttpResult -> Store -> Store;
  (* a cluster API call that the API server refuses, and with what *)
  faults : list Event -> ApiCall -> option error;
  (* time.Now().UTC().Format(time.RFC3339) *)
  clock : list Event -> string;
  helmRepo : string -> IndexFetch;
  kubeConfig : ClientInit;
  readFile : string -> result string;
}.

(** The mutable state: the package-level variables of [main.go], the
    cluster store and the trace. *)
Record World := {
  env : Env;
  serverURL : string;
  token : string;
  repoURL : string;
  limit : Z;
  cluster : Store;
  trace : list Event;
}.

Definition set_trace (t : list Event) (w : World) : World :=
  {| env := env w; serverURL := serverURL w; token := token w;
     repoURL := repoURL w; limit := limit w; cluster := cluster w;
     trace := t |}.

Definition set_cluster (s : Store) (w : World) : World :=
  {| env := env w; serverURL := serverURL w; token := token w;
     repoURL := repoURL w; limit := limit w; cluster := s;
     trace := trace w |}.

Definition set_token (t : string) (w : World) : World :=
  {| env := env w; serverURL := serverURL w; token := t;
     repoURL := repoURL w; limit := limit w; cluster := cluster w;
     trace := trace w |}.

Definition set_flags (server repo tok : string) (lim : Z) (w : World) : World :=
  {| env := env w; serverURL := server; token := tok;
     repoURL := repo; limit := lim; cluster := cluster w;
     trace := trace w |}.

(** ** The monad of the program: state, and the three ways a Go program
    stops early. *)

Inductive Outcome (A : Type) : Type :=
| Ret (a : A)
| Panic (msg : string)         (* run-time panic *)
| Fatal                        (* log.Fatal(): message, then exit *)
| OsExit (code : Z).           (* os.Exit(code) *)
Arguments Ret {A} a.
Arguments Panic {A} msg.
Arguments Fatal {A}.
Arguments OsExit {A} code.

Definition M (A : Type) : Type := World -> Outcome A * World.

Definition ret {A} (a : A) : M A := fun w => (Ret a, w).

Definition bind {A B} (m : M A) (k : A -> M B) : M B :=
  fun w =>
    match m w with
    | (Ret a, w') => k a w'
    | (Panic msg, w') => (Panic msg, w')
    | (Fatal, w') => (Fatal, w')
    | (OsExit c, w') => (OsExit c, w')
    end.

#[global] Instance M_ret : MRet M := @ret.
#[global] Instance M_bind : MBind M := fun A B k m => bind m k.

Definition get : M World := fun w => (Ret w, w).

Definition emit (ev : Event) : M unit :=
  fun w => (Ret tt, set_trace (trace w ++ [ev]) w).

Definition modify (f : World -> World) : M unit := fun w => (Ret tt, f w).

Definition panic {A} (msg : string) : M A := fun w => (Panic msg, w).

Definition osExit {A} (code : Z) : M A := fun w => (OsExit code, w).

(** [log.Info().Msgf], [log.Warn().Msgf], [log.Error().Msgf] *)
Definition logf (lvl : Level) (fmt : string) (args : list Arg) : M unit :=
  emit (EvLog lvl fmt args).

(** [log.Fatal().Msgf]: writes the message and ends the process. *)
Definition fatalf {A} (fmt : string) (args : list Arg) : M A :=
  fun w => (Fatal, set_trace (trace w ++ [EvLog FatalLevel fmt args]) w).

(** [time.Sleep] *)
Definition sleep (ms : Z) : M unit := emit (EvSleep ms).

(** [time.Now().UTC().Format(time.RFC3339)] *)
Definition now : M string := fun w => (Ret (clock (env w) (trace w)), w).

(** [client.R()] followed by [Get] or [Post]: the request carries the
    headers set on the client. *)
Definition execute (req : Request) : M HttpResult :=
  fun w =>
    let res := net (env w) (trace w) req in
    (Ret res,
     set_trace (trace w ++ [EvHTTP req res])
       (set_cluster (ingest (env w) (trace w) req res (cluster w)) w)).

Definition Get (c : Client) (url : string) : M HttpResult :=
  execute {| Method := "GET"; URL := url; Header := clientHeader c;
             Body := None |}.

Definition Post (c : Client) (body : AppRequest) (url : string) : M HttpResult :=
  execute {| Method := "POST"; URL := url; Header := clientHeader c;
             Body := Some body |}.

(** ** [encoding/base64]: [StdEncoding.EncodeToString] *)

Definition encodeStd : string :=
  "ABCDEFGHIJKLMNOPQRSTUVWXYZabcdefghijklmnopqrstuvwxyz0123456789+/".

Definition sextet (n : N) : Ascii.ascii :=
  match String.get (N.to_nat n) encodeStd with
  | Some c => c
  | None => Ascii.Ascii true false true true true true false false
  end.

Fixpoint EncodeToString (src : list Byte.byte) : string :=
  match src with
  | [] => ""
  | [a] =>
    let x := Byte.to_N a in
    String (sextet (x / 4)) (String (sextet (x mod 4 * 16)) "==")
  | [a; b] =>
    let x := Byte.to_N a in
    let y := Byte.to_N b in
    String (sextet (x / 4))
      (String (sextet (x mod 4 * 16 + y / 16))
         (String (sextet (y mod 16 * 4)) "="))
  | a :: b :: c :: rest =>
    let x := Byte.to_N a in
    let y := Byte.to_N b in
    let z := Byte.to_N c in
    String (sextet (x / 4))
      (String (sextet (x mod 4 * 16 + y / 16))
         (String (sextet (y mod 16 * 4 + z / 64))
            (String (sextet (z mod 64)) (EncodeToString rest))))
  end%N.

(** ** [uploadChart] *)

(** [fmt.Sprintf("%s/kapis/application.kubesphere.io/v2/apps", serverURL)] *)
Definition createURL (server : string) : string :=
  server +:+ "/kapis/application.kubesphere.io/v2/apps".

(** [fmt.Sprintf("%s/kapis/application.kubesphere.io/v2/apps/%s/versions",
    serverURL, appID)] *)
Definition versionsURL (server appID : string) : string :=
  server +:+ "/kapis/application.kubesphere.io/v2/apps/" +:+ appID +:+ "/versions".

(** The [AppRequest] literal of the upload. *)
Definition uploadBody (payload : list Byte.byte) : AppRequest :=
  {| RepoName := "upload";
     Package := EncodeToString payload;
     CategoryName := mark;
     Workspace := "";
     AppType := "helm" |}.

(** The loop [for _, entry := range entries] of [uploadChart], from the
    values [appID] and [success] have when an iteration starts.  A [break]
    ends the recursion, a [continue] recurs on the rest with the two
    variables as they are.  Nothing in the loop assigns [appID]. *)
Fixpoint uploadEntries (resty_client : Client) (appID : string) (success : Z)
    (entries : list ChartVersion) : M unit :=
  match entries with
  | [] => ret tt
  | entry :: rest =>
    if Deprecated entry then
      logf WarnLevel "App %s is deprecated, skip" [AStr (Name entry)]
    else
      match URLs entry with
      | [] => panic "index out of range [0] with length 0"
      | url0 :: _ =>
        r ← Get resty_client url0;
        match r with
        | TransportErr err =>
          logf ErrorLevel "Failed to fetch chart %v, %v"
            [AStr (Name entry); AErr err];;
          uploadEntries resty_client appID success rest
        | Responded resp =>
          if IsError resp then
            logf ErrorLevel "Failed to fetch chart %v, status code: %d"
              [AStr (Name entry); AInt (StatusCode resp)];;
            uploadEntries resty_client appID success rest
          else
            w ← get;
            let url :=
              if String.eqb appID "" then createURL (serverURL w)
              else versionsURL (serverURL w) appID in
            r' ← Post resty_client (uploadBody (RespBody resp)) url;
            match r' with
            | TransportErr err =>
              logf ErrorLevel "Failed to post app version %s:%s %v"
                [AStr (Name entry); AStr (ChartVer entry); AErr err];;
              uploadEntries resty_client appID success rest
            | Responded resp' =>
              if IsError resp' then
                logf ErrorLevel "failed to post app, status code: %d"
                  [AInt (StatusCode resp')];;
                uploadEntries resty_client appID success rest
              else
                logf InfoLevel "App %s:%s posted successfully"
                  [AStr (Name entry); AStr (ChartVer entry)];;
                let success := success + 1 in
                w' ← get;
                if limit w' <=? success then ret tt
                else
                  sleep 200;;
                  uploadEntries resty_client appID success rest
            end
        end
      end
  end.

(** The loop [for _, entries := range indexData.Entries]: each package
    starts with [appID := ""] and [success := 0]. *)
Fixpoint uploadPackages (resty_client : Client)
    (index : list (string * list ChartVersion)) : M unit :=
  match index with
  | [] => ret tt
  | (_, entries) :: more =>
    uploadEntries resty_client "" 0 entries;;
    uploadPackages resty_client more
  end.

Definition uploadChart (resty_client : Client) : M (option error) :=
  w ← get;
  match helmRepo (env w) (repoURL w) with
  | RepoErr err => fatalf "failed to create chart repo: %v" [AErr err]
  | DownloadErr err => fatalf "failed to download index file: %v" [AErr err]
  | LoadErr err => fatalf "failed to load index file: %v" [AErr err]
  | Loaded entries =>
    uploadPackages resty_client entries;;
    ret None
  end.

(** ** The cluster resource API (dynamic client) *)

(** The selector string up to the first ['='] and what follows it. *)
Fixpoint cutEq (s : string) : option (string * string) :=
  match s with
  | EmptyString => None
  | String c rest =>
    if Ascii.eqb c (Ascii.Ascii true false true true true true false false)
    then Some (EmptyString, rest)
    else match cutEq rest with
         | Some (k, v) => Some (String c k, v)
         | None => None
         end
  end.

(** Modelled from the spec: label selection of the cluster resource API,
    which is not part of this repository.  The selector syntax is
    [key=value], a single requirement per query; the empty selector selects
    everything and a bare [key] selects the objects that carry the key. *)
Definition selects (selector : string) (labels : option (gmap string string)) : bool :=
  if String.eqb selector "" then true
  else match cutEq selector with
       | Some (k, v) => bool_decide (labels ≫= (.!! k) = Some v)
       | None => bool_decide (is_Some (labels ≫= (.!! selector)))
       end.

Definition resource (gvr : GroupVersionResource) (s : Store)
    : option (gmap string ObjState) :=
  if decide (gvr = appGVR) then Some (applications s)
  else if decide (gvr = versionGVR) then Some (applicationversions s)
  else None.

Definition set_resource (gvr : GroupVersionResource) (m : gmap string ObjState)
    (s : Store) : Store :=
  if decide (gvr = appGVR)
  then {| applications := m; applicationversions := applicationversions s |}
  else if decide (gvr = versionGVR)
  then {| applications := applications s; applicationversions := m |}
  else s.

Definition toUnstructured (kv : string * ObjState) : Unstructured :=
  {| metaName := kv.1; metaLabels := objLabels kv.2; status := objStatus kv.2 |}.

(** Modelled from the spec: [List(labelSelector)] of the cluster resource
    API, which is not part of this repository.  It returns the objects of
    the kind that the selector selects, each as it is stored. *)
Definition listObjects (gvr : GroupVersionResource) (opts : ListOptions)
    (s : Store) : result (list Unstructured) :=
  match resource gvr s with
  | None => Err "the server could not find the requested resource"
  | Some m =>
    Ok (List.filter (fun o => selects (LabelSelector opts) (metaLabels o))
          (toUnstructured <$> map_to_list m))
  end.

(** Modelled from the spec: [Update(object)], the full-object update of
    the cluster resource API.  It replaces the labels of the stored object
    and leaves its status to the status subresource. *)
Definition applyUpdate (gvr : GroupVersionResource) (obj : Unstructured)
    (s : Store) : result Store :=
  match resource gvr s with
  | None => Err "the server could not find the requested resource"
  | Some m =>
    match m !! metaName obj with
    | None => Err "not found"
    | Some st =>
      Ok (set_resource gvr
            (<[metaName obj :=
                 {| objLabels := metaLabels obj; objStatus := objStatus st |}]> m) s)
    end
  end.

(** Modelled from the spec: [UpdateStatus(object)], the update of the
    status subresource.  It replaces the status of the stored object and
    nothing else. *)
Definition applyUpdateStatus (gvr : GroupVersionResource) (obj : Unstructured)
    (s : Store) : result Store :=
  match resource gvr s with
  | None => Err "the server could not find the requested resource"
  | Some m =>
    match m !! metaName obj with
    | None => Err "not found"
    | Some st =>
      Ok (set_resource gvr
            (<[metaName obj :=
                 {| objLabels := objLabels st; objStatus := status obj |}]> m) s)
    end
  end.

Definition errOf {A} (r : result A) : option error :=
  match r with
  | Ok _ => None
  | Err e => Some e
  end.

(** [dynamicClient.Resource(gvr).List(context.TODO(), opts)] *)
Definition ResourceList (gvr : GroupVersionResource) (opts : ListOptions)
    : M (result (list Unstructured)) :=
  fun w =>
    let call := CallList gvr opts in
    let r := match faults (env w) (trace w) call with
             | Some e => Err e
             | None => listObjects gvr opts (cluster w)
             end in
    (Ret r, set_trace (trace w ++ [EvApi call (errOf r)]) w).

(** The two update calls; the returned object is dropped by every caller,
    so only the error is kept. *)
Definition update (call : ApiCall) (effect : Store -> result Store)
    : M (option error) :=
  fun w =>
    let r := match faults (env w) (trace w) call with
             | Some e => Err e
             | None => effect (cluster w)
             end in
    (Ret (errOf r),
     set_trace (trace w ++ [EvApi call (errOf r)])
       match r with
       | Ok s' => set_cluster s' w
       | Err _ => w
       end).

(** [dynamicClient.Resource(gvr).Update(context.TODO(), &obj, ...)] *)
Definition ResourceUpdate (gvr : GroupVersionResource) (obj : Unstructured)
    : M (option error) :=
  update (CallUpdate gvr obj) (applyUpdate gvr obj).

(** [dynamicClient.Resource(gvr).UpdateStatus(context.TODO(), &obj, ...)] *)
Definition ResourceUpdateStatus (gvr : GroupVersionResource) (obj : Unstructured)
    : M (option error) :=
  update (CallUpdateStatus gvr obj) (applyUpdateStatus gvr obj).

(** ** [unstructured] accessors *)

Definition GetName (u : Unstructured) : string := metaName u.

(** [GetLabels] returns a fresh map, or the nil map when the object has no
    labels field. *)
Definition GetLabels (u : Unstructured) : option (gmap string string) :=
  metaLabels u.

(** [SetLabels(nil)] removes the field, any other map is stored. *)
Definition SetLabels (u : Unstructured) (labels : option (gmap string string))
    : Unstructured :=
  {| metaName := metaName u; metaLabels := labels; status := status u |}.

(** [unstructured.SetNestedField(obj, value, "status", field)] *)
Definition SetNestedField (u : Unstructured) (value field : string) : Unstructured :=
  {| metaName := metaName u; metaLabels := metaLabels u;
     status := <[field := value]> (status u) |}.

(** ** The reconciliation stages *)

(** [updateAppStatus]: the loop over [list.Items]. *)
Fixpoint updateAppStatus_items (items : list Unstructured) : M (option error) :=
  match items with
  | [] => ret None
  | item :: rest =>
    currentTime ← now;
    let item := SetNestedField item "active" "state" in
    let item := SetNestedField item currentTime "updateTime" in
    err ← ResourceUpdateStatus appGVR item;
    match err with
    | Some e =>
      logf ErrorLevel "Failed to update status for app %s: %v"
        [AStr (GetName item); AErr e];;
      ret (Some e)
    | None => updateAppStatus_items rest
    end
  end.

Definition updateAppStatus (listOptions : ListOptions) : M (option error) :=
  r ← ResourceList appGVR listOptions;
  match r with
  | Err e =>
    logf ErrorLevel "Failed to list apps: %v" [AErr e];;
    ret (Some e)
  | Ok items => updateAppStatus_items items
  end.

(** [labels[k] = v]: a write into the nil map panics. *)
Definition mapassign (labels : option (gmap string string)) (k v : string)
    : M (option (gmap string string)) :=
  match labels with
  | None => panic "assignment to entry in nil map"
  | Some m => ret (Some (<[k := v]> m))
  end.

(** [for k, v := range label { labels[k] = v }], over the pairs of [label]
    in the order the range visits them. *)
Fixpoint rangeAssign (labels : option (gmap string string))
    (pairs : list (string * string)) : M (option (gmap string string)) :=
  match pairs with
  | [] => ret labels
  | (k, v) :: more =>
    labels' ← mapassign labels k v;
    rangeAssign labels' more
  end.

(** [updateAppLabel]: the loop over [list.Items]. *)
Fixpoint updateAppLabel_items (label : gmap string string)
    (items : list Unstructured) : M (option error) :=
  match items with
  | [] => ret None
  | item :: rest =>
    labels ← rangeAssign (GetLabels item) (map_to_list label);
    let item := SetLabels item labels in
    err ← ResourceUpdate appGVR item;
    match err with
    | Some e =>
      logf ErrorLevel "Failed to update labels for app %s: %v"
        [AStr (GetName item); AErr e];;
      ret (Some e)
    | None => updateAppLabel_items label rest
    end
  end.

Definition updateAppLabel (listOptions : ListOptions) (label : gmap string string)
    : M (option error) :=
  r ← ResourceList appGVR listOptions;
  match r with
  | Err e =>
    logf ErrorLevel "Failed to list apps: %v" [AErr e];;
    ret (Some e)
  | Ok items => updateAppLabel_items label items
  end.

(** [updateVersionStatus]: the loop over [versionList.Items] of the
    application [item]. *)
Fixpoint updateVersionStatus_versions (item : Unstructured)
    (versionItems : list Unstructured) : M (option error) :=
  match versionItems with
  | [] => ret None
  | versionItem :: rest =>
    currentTime ← now;
    let versionItem := SetNestedField versionItem currentTime "updated" in
    let versionItem := SetNestedField versionItem "admin" "userName" in
    let versionItem := SetNestedField versionItem "active" "state" in
    err ← ResourceUpdateStatus versionGVR versionItem;
    match err with
    | Some e =>
      logf ErrorLevel "Failed to update version status for app %s: %v"
        [AStr (GetName item); AErr e];;
      ret (Some e)
    | None => updateVersionStatus_versions item rest
    end
  end.

(** [updateVersionStatus]: the loop over [list.Items]. *)
Fixpoint updateVersionStatus_items (items : list Unstructured) : M (option error) :=
  match items with
  | [] => ret None
  | item :: rest =>
    let options :=
      {| LabelSelector := "application.kubesphere.io/app-id=" +:+ GetName item |} in
    r ← ResourceList versionGVR options;
    match r with
    | Err e =>
      logf ErrorLevel "Failed to list versions for app %s: %v"
        [AStr (GetName item); AErr e];;
      ret (Some e)
    | Ok versionItems =>
      err ← updateVersionStatus_versions item versionItems;
      match err with
      | Some e => ret (Some e)
      | None => updateVersionStatus_items rest
      end
    end
  end.

Definition updateVersionStatus (listOptions : ListOptions) : M (option error) :=
  r ← ResourceList appGVR listOptions;
  match r with
  | Err e =>
    logf ErrorLevel "Failed to list apps: %v" [AErr e];;
    ret (Some e)
  | Ok items => updateVersionStatus_items items
  end.

(** ** [initDynamicClient], [run] and [main] *)

Definition initDynamicClient : M (option error) :=
  w ← get;
  match kubeConfig (env w) with
  | ConfigDie => osExit 1
  | NewForConfigErr err =>
    logf ErrorLevel "Failed to create dynamic client: %v" [AErr err];;
    ret (Some err)
  | ClientReady =>
    logf InfoLevel "Dynamic client initialized successfully" [];;
    ret None
  end.

(** [if err != nil { log.Fatal().Msgf(fmt, err) }] *)
Definition fatalIf (err : option error) (fmt : string) : M unit :=
  match err with
  | Some e => fatalf fmt [AErr e]
  | None => ret tt
  end.

Definition categoryKey : string := "application.kubesphere.io/app-category-name".

(** [listOptions] of [run]:
    [fmt.Sprintf("application.kubesphere.io/app-category-name=%s", mark)] *)
Definition listOptions : ListOptions :=
  {| LabelSelector := categoryKey +:+ "=" +:+ mark |}.

Definition store : gmap string string :=
  {[ "application.kubesphere.io/app-store" := "true" ]}.

Definition categoryName : gmap string string :=
  {[ categoryKey := "kubesphere-app-uncategorized" ]}.

(** The four stages of [run], from the construction of [listOptions] to
    the end of the function. *)
Definition reconcile : M unit :=
  err ← updateAppStatus listOptions;
  fatalIf err "[1/4] Failed to update app status: %v";;
  logf InfoLevel "[1/4] updateAppStatus completed successfully" [];;
  err ← updateAppLabel listOptions store;
  fatalIf err "[2/4] Failed to update app label: %v";;
  logf InfoLevel "[2/4] updateAppLabel store completed successfully" [];;
  err ← updateVersionStatus listOptions;
  fatalIf err "[3/4] Failed to update version status: %v";;
  logf InfoLevel "[3/4] updateVersionStatus completed successfully" [];;
  err ← updateAppLabel listOptions categoryName;
  fatalIf err "[4/4] Failed to update app category label: %v";;
  logf InfoLevel "[4/4] updateAppLabel categoryName completed successfully" [].

Definition run (resty_client : Client) : M unit :=
  w ← get;
  logf InfoLevel "Starting to upload to %s " [AStr (serverURL w)];;
  err ← initDynamicClient;
  fatalIf err "Failed to initialize dynamic client: %v";;
  err ← uploadChart resty_client;
  fatalIf err "Failed to upload chart: %v";;
  reconcile.

(** The command line after cobra has parsed it: a flag that was not given
    is [None]. *)
Record Flags := {
  flagServer : option string;
  flagRepo : option string;
  flagToken : option string;
  flagLimit : option Z;
}.

Definition tokenPath : string :=
  "/var/run/secrets/kubesphere.io/serviceaccount/token".

(** The [Run] closure of [rootCmd]. *)
Definition rootCmd_Run (resty_client : Client) : M unit :=
  w ← get;
  (if String.eqb (token w) "" then
     logf InfoLevel
       "Using token from /var/run/secrets/kubesphere.io/serviceaccount/token" [];;
     match readFile (env w) tokenPath with
     | Err err => fatalf "Failed to read token file: %v" [AErr err]
     | Ok data => modify (set_token data)
     end
   else ret tt);;
  run resty_client.

Definition quoted (s : string) : string :=
  let dq := Ascii.Ascii false true false false false true false false in
  String dq (s +:+ String dq EmptyString).

(** The error of cobra's check of the flags marked required. *)
Definition requiredNotSet (names : string) : error :=
  "required flag(s) " +:+ names +:+ " not set".

(** [rootCmd.Execute()]: the flag variables receive the parsed values (or
    their defaults), the two required flags are checked, then [Run] is
    called. *)
Definition Execute (args : Flags) (resty_client : Client) : M (option error) :=
  modify (set_flags (default "" (flagServer args)) (default "" (flagRepo args))
            (default "" (flagToken args)) (default 1 (flagLimit args)));;
  match flagServer args, flagRepo args with
  | Some _, Some _ => rootCmd_Run resty_client;; ret None
  | None, Some _ => ret (Some (requiredNotSet (quoted "server")))
  | Some _, None => ret (Some (requiredNotSet (quoted "repo")))
  | None, None =>
    ret (Some (requiredNotSet (quoted "repo" +:+ ", " +:+ quoted "server")))
  end.

(** [main]: the client is built first, from the value [token] has at that
    point; the flags are parsed afterwards, inside [Execute]. *)
Definition main (args : Flags) : M unit :=
  w ← get;
  let resty_client :=
    {| clientHeader :=
         <["Authorization" := "Bearer " +:+ token w]>
           (<["Content-Type" := "application/json"]> ∅);
       clientTimeout := 5000 |} in
  err ← Execute args resty_client;
  match err with
  | Some e => emit (EvPrintln e);; osExit 1
  | None => ret tt
  end.

(** The state in which the Go runtime starts [main]: every package-level
    variable has its zero value. *)
Definition start (e : Env) (s : Store) : World :=
  {| env := e; serverURL := ""; token := ""; repoURL := ""; limit := 0;
     cluster := s; trace := [] |}.

(** * The vocabulary of the properties *)

(** ** Traces of the uploader *)

(** The events a computation that started in [w] and ended in [w'] has
    added. *)
Definition since (w w' : World) : list Event :=
  drop (length (trace w)) (trace w').

(** The first URLs of the GET requests of a trace, the targets of its POST
    requests, and the number of uploads that went through. *)
Definition gets (evs : list Event) : list string :=
  omap (fun ev => match ev with
                  | EvHTTP req _ =>
                    if String.eqb (Method req) "GET" then Some (URL req) else None
                  | _ => None
                  end) evs.

Definition posts (evs : list Event) : list string :=
  omap (fun ev => match ev with
                  | EvHTTP req _ =>
                    if String.eqb (Method req) "POST" then Some (URL req) else None
                  | _ => None
                  end) evs.

Definition uploaded (ev : Event) : bool :=
  match ev with
  | EvHTTP req (Responded resp) =>
    String.eqb (Method req) "POST" && negb (IsError resp)
  | _ => false
  end.

Definition successes (evs : list Event) : Z :=
  Z.of_nat (length (List.filter uploaded evs)).

(** One iteration of the loop of [uploadEntries] up to the point where the
    success counter is touched, with what the iteration came to. *)
Inductive Verdict :=
| Skipped        (* deprecated: the loop is left *)
| Failed         (* one of the four [continue]s *)
| Uploaded.      (* the POST went through *)

Definition attempt (resty_client : Client) (appID : string) (entry : ChartVersion)
    : M Verdict :=
  if Deprecated entry then
    logf WarnLevel "App %s is deprecated, skip" [AStr (Name entry)];;
    ret Skipped
  else
    match URLs entry with
    | [] => panic "index out of range [0] with length 0"
    | url0 :: _ =>
      r ← Get resty_client url0;
      match r with
      | TransportErr err =>
        logf ErrorLevel "Failed to fetch chart %v, %v"
          [AStr (Name entry); AErr err];;
        ret Failed
      | Responded resp =>
        if IsError resp then
          logf ErrorLevel "Failed to fetch chart %v, status code: %d"
            [AStr (Name entry); AInt (StatusCode resp)];;
          ret Failed
        else
          w ← get;
          let url :=
            if String.eqb appID "" then createURL (serverURL w)
            else versionsURL (serverURL w) appID in
          r' ← Post resty_client (uploadBody (RespBody resp)) url;
          match r' with
          | TransportErr err =>
            logf ErrorLevel "Failed to post app version %s:%s %v"
              [AStr (Name entry); AStr (ChartVer entry); AErr err];;
            ret Failed
          | Responded resp' =>
            if IsError resp' then
              logf ErrorLevel "failed to post app, status code: %d"
                [AInt (StatusCode resp')];;
              ret Failed
            else
              logf InfoLevel "App %s:%s posted successfully"
                [AStr (Name entry); AStr (ChartVer entry)];;
              ret Uploaded
          end
      end
    end.

(** An HTTP exchange the uploader takes for failed: no response, or a
    response for which [IsError] holds. *)
Definition failedExchange (ev : Event) : bool :=
  match ev with
  | EvHTTP _ (TransportErr _) => true
  | EvHTTP _ (Responded resp) => IsError resp
  | _ => false
  end.

(** The URL the POST of an iteration goes to, as [uploadEntries] computes
    it from [appID]. *)
Definition target (server appID : string) : string :=
  if String.eqb appID "" then createURL server else versionsURL server appID.

(** A response outside 2xx. *)
Definition non2xx (ev : Event) : bool :=
  match ev with
  | EvHTTP _ (Responded resp) =>
    negb ((200 <=? StatusCode resp) && (StatusCode resp <? 300))
  | _ => false
  end.

(** The request of the download step. *)
Definition download (c : Client) (url : string) : Request :=
  {| Method := "GET"; URL := url; Header := clientHeader c; Body := None |}.

(** ** Traces of the stages *)

(** What an event does to the store: an accepted update call applies its
    update, an HTTP exchange does what the catalog does with it, and
    nothing else touches the store. *)
Definition effect (e : Env) (hist : list Event) (ev : Event) (s : Store) : Store :=
  match ev with
  | EvHTTP req res => ingest e hist req res s
  | EvApi call err =>
    match err with
    | Some _ => s
    | None =>
      match call with
      | CallList _ _ => s
      | CallUpdate gvr obj =>
        match applyUpdate gvr obj s with
        | Ok s' => s'
        | Err _ => s
        end
      | CallUpdateStatus gvr obj =>
        match applyUpdateStatus gvr obj s with
        | Ok s' => s'
        | Err _ => s
        end
      end
    end
  | _ => s
  end.

Fixpoint replay (e : Env) (hist evs : list Event) (s : Store) : Store :=
  match evs with
  | [] => s
  | ev :: more => replay e (hist ++ [ev]) more (effect e hist ev s)
  end.

(** The errors of the cluster API calls of a trace. *)
Definition apiErrors (evs : list Event) : list error :=
  omap (fun ev => match ev with
                  | EvApi _ (Some e) => Some e
                  | _ => None
                  end) evs.

(** The shape of a fail-fast run: either no call failed, or the run ends
    with the one failed call and the log line about it, and returns the
    error of that call. *)
Definition failFast (mayPanic : bool) (r : Outcome (option error))
    (evs : list Event) : Prop :=
  match r with
  | Ret None => apiErrors evs = []
  | Panic _ => mayPanic = true /\ apiErrors evs = []
  | Ret (Some e) =>
    exists pre call fmt args,
      evs = pre ++ [EvApi call (Some e); EvLog ErrorLevel fmt args] /\
      apiErrors pre = []
  | Fatal | OsExit _ => False
  end.

(** A stage that started in [w] and ended in [w'] with [r]: it has added
    events to the trace, all of them in [Q], in the fail-fast shape (with a
    panic allowed or not), and the store is what these events make of the
    store of [w]. *)
Definition stageRun (Q : Event -> Prop) (mayPanic : bool)
    (w : World) (r : Outcome (option error)) (w' : World) : Prop :=
  env w' = env w /\
  exists evs,
    trace w' = trace w ++ evs /\
    Forall Q evs /\
    cluster w' = replay (env w) (trace w) evs (cluster w) /\
    failFast mayPanic r evs.

(** A status stage on [gvr]: error logs, list calls, and status updates of
    objects of [gvr]. *)
Definition statusEvent (gvr : GroupVersionResource) (ev : Event) : Prop :=
  match ev with
  | EvLog ErrorLevel _ _ => True
  | EvApi (CallList _ _) _ => True
  | EvApi (CallUpdateStatus g _) _ => g = gvr
  | _ => False
  end.

(** A label stage: error logs, list calls, and full updates of
    applications that satisfy [P]. *)
Definition labelEvent (P : Unstructured -> Prop) (ev : Event) : Prop :=
  match ev with
  | EvLog ErrorLevel _ _ => True
  | EvApi (CallList _ _) _ => True
  | EvApi (CallUpdate g obj) _ => g = appGVR /\ P obj
  | _ => False
  end.

(** The labels an item is sent with, when the range does not panic. *)
Definition patched (label : gmap string string)
    (labels : option (gmap string string)) : option (gmap string string) :=
  match labels with
  | Some m => Some (label ∪ m)
  | None => None
  end.

(** The stored state of an application after its labels were patched. *)
Definition patchState (label : gmap string string) (st : ObjState) : ObjState :=
  {| objLabels := patched label (objLabels st); objStatus := objStatus st |}.

(** ** The order of the stages *)

(** The category label of the application [n], if any. *)
Definition categoryOf (s : Store) (n : string) : option string :=
  ((applications s !! n) ≫= objLabels) ≫= (.!! categoryKey).

(** The category label an object is sent with. *)
Definition sentCategory (obj : Unstructured) : option string :=
  metaLabels obj ≫= (.!! categoryKey).

(** The events of [reconcile], stage by stage: the events of a stage, then
    the line that reports it; a stage that fails is the last one.  The
    updates of the second stage leave the mark in place, the updates of the
    fourth stage replace it. *)
Inductive Pipeline : Outcome unit -> list Event -> Prop :=
| failed1 e1 err :
    Forall (statusEvent appGVR) e1 ->
    Pipeline Fatal
      (e1 ++ [EvLog FatalLevel "[1/4] Failed to update app status: %v" [AErr err]])
| failed2 e1 e2 err :
    Forall (statusEvent appGVR) e1 ->
    Forall (labelEvent (fun obj => sentCategory obj = Some mark)) e2 ->
    Pipeline Fatal
      (e1 ++ EvLog InfoLevel "[1/4] updateAppStatus completed successfully" [] ::
       e2 ++ [EvLog FatalLevel "[2/4] Failed to update app label: %v" [AErr err]])
| failed3 e1 e2 e3 err :
    Forall (statusEvent appGVR) e1 ->
    Forall (labelEvent (fun obj => sentCategory obj = Some mark)) e2 ->
    Forall (statusEvent versionGVR) e3 ->
    Pipeline Fatal
      (e1 ++ EvLog InfoLevel "[1/4] updateAppStatus completed successfully" [] ::
       e2 ++ EvLog InfoLevel "[2/4] updateAppLabel store completed successfully" [] ::
       e3 ++ [EvLog FatalLevel "[3/4] Failed to update version status: %v" [AErr err]])
| failed4 e1 e2 e3 e4 err :
    Forall (statusEvent appGVR) e1 ->
    Forall (labelEvent (fun obj => sentCategory obj = Some mark)) e2 ->
    Forall (statusEvent versionGVR) e3 ->
    Forall (labelEvent (fun obj =>
              sentCategory obj = Some "kubesphere-app-uncategorized")) e4 ->
    Pipeline Fatal
      (e1 ++ EvLog InfoLevel "[1/4] updateAppStatus completed successfully" [] ::
       e2 ++ EvLog InfoLevel "[2/4] updateAppLabel store completed successfully" [] ::
       e3 ++ EvLog InfoLevel "[3/4] updateVersionStatus completed successfully" [] ::
       e4 ++ [EvLog FatalLevel "[4/4] Failed to update app category label: %v"
                [AErr err]])
| completed e1 e2 e3 e4 :
    Forall (statusEvent appGVR) e1 ->
    Forall (labelEvent (fun obj => sentCategory obj = Some mark)) e2 ->
    Forall (statusEvent versionGVR) e3 ->
    Forall (labelEvent (fun obj =>
              sentCategory obj = Some "kubesphere-app-uncategorized")) e4 ->
    Pipeline (Ret tt)
      (e1 ++ EvLog InfoLevel "[1/4] updateAppStatus completed successfully" [] ::
       e2 ++ EvLog InfoLevel "[2/4] updateAppLabel store completed successfully" [] ::
       e3 ++ EvLog InfoLevel "[3/4] updateVersionStatus completed successfully" [] ::
       e4 ++ [EvLog InfoLevel
                "[4/4] updateAppLabel categoryName completed successfully" []]).

(** What [reconcile] needs to know of a stage: it returns, and its events
    are of the stage's kind. *)
Definition stageFacts (Q : Event -> Prop) (w : World)
    (r : Outcome (option error)) (w1 : World) : Prop :=
  (exists err, r = Ret err) /\
  exists evs, trace w1 = trace w ++ evs /\ Forall Q evs.

(** ** The headers of the requests *)

(** A request event carries the headers [hdr]. *)
Definition carries (hdr : gmap string string) (ev : Event) : Prop :=
  match ev with
  | EvHTTP req _ => Header req = hdr
  | _ => True
  end.

(** A computation that only adds events, and whose requests carry
    [hdr]. *)
Definition keeps (hdr : gmap string string) {A} (m : M A) : Prop :=
  forall w, exists evs, trace (m w).2 = trace w ++ evs /\ Forall (carries hdr) evs.

(** The Authorization header of each request of a trace. *)
Definition authorizations (evs : list Event) : list (option string) :=
  omap (fun ev => match ev with
                  | EvHTTP req _ => Some (Header req !! "Authorization")
                  | _ => None
                  end) evs.

(** ** What a computation leaves alone *)

(** A computation that takes every world to a world related to it by
    [R]. *)
Definition respects (R : World -> World -> Prop) {A} (m : M A) : Prop :=
  forall w, R w (m w).2.

(** The package-level configuration of [main.go]. *)
Definition config (w : World) : string * string * string * Z :=
  (serverURL w, token w, repoURL w, limit w).

(** The oracles and the configuration are those of [w]. *)
Definition sameConfig (w w' : World) : Prop :=
  env w' = env w /\ config w' = config w.

(** The trace of [w'] is the trace of [w] with events of [Q] added. *)
Definition adds (Q : Event -> Prop) (w w' : World) : Prop :=
  exists evs, trace w' = trace w ++ evs /\ Forall Q evs.

(** The events of the upload phase: logs, requests with the headers [hdr]
    and sleeps. *)
Definition uploadEvent (hdr : gmap string string) (ev : Event) : Prop :=
  match ev with
  | EvLog _ _ _ | EvSleep _ => True
  | EvHTTP req _ => Header req = hdr
  | EvPrintln _ | EvApi _ _ => False
  end.

(** The events of the reconciliation: logs and cluster API calls. *)
Definition reconcileEvent (ev : Event) : Prop :=
  match ev with
  | EvLog _ _ _ | EvApi _ _ => True
  | EvPrintln _ | EvHTTP _ _ | EvSleep _ => False
  end.

(** An exchange with a server or with the cluster. *)
Definition remote (ev : Event) : bool :=
  match ev with
  | EvHTTP _ _ | EvApi _ _ => true
  | _ => false
  end.

(** ** More about the traces of the uploader *)

(** The durations of the sleeps of a trace. *)
Definition sleeps (evs : list Event) : list Z :=
  omap (fun ev => match ev with
                  | EvSleep ms => Some ms
                  | _ => None
                  end) evs.

(** Every POST of [evs] comes directly after a GET that was answered
    without error, and carries the upload request made of the body of that
    answer; every GET has no body.  [last] is the event before [evs]. *)
Fixpoint bodiesFollow (last : option Event) (evs : list Event) : Prop :=
  match evs with
  | [] => True
  | ev :: more =>
    match ev with
    | EvHTTP req _ =>
      (Method req = "POST" ->
       exists greq resp,
         last = Some (EvHTTP greq (Responded resp)) /\
         Method greq = "GET" /\ IsError resp = false /\
         Body req = Some (uploadBody (RespBody resp))) /\
      (Method req = "GET" -> Body req = None)
    | _ => True
    end /\
    bodiesFollow (Some ev) more
  end.

(** A network on which every exchange succeeds. *)
Definition alwaysAnswers (e : Env) : Prop :=
  forall hist req, exists resp,
    net e hist req = Responded resp /\ IsError resp = false.

(** ** The stores of the stages *)

(** The objects of a kind, none for a kind the program does not use. *)
Definition objects (gvr : GroupVersionResource) (s : Store) : gmap string ObjState :=
  default ∅ (resource gvr s).

(** The status that [updateAppStatus] writes at the time [t], and the
    stored application with it. *)
Definition activeAt (t : string) (st : gmap string string) : gmap string string :=
  <["updateTime" := t]> (<["state" := "active"]> st).

(** The status that [updateVersionStatus] writes at the time [t]. *)
Definition adminActiveAt (t : string) (st : gmap string string)
    : gmap string string :=
  <["state" := "active"]> (<["userName" := "admin"]> (<["updated" := t]> st)).

(** A stored object with its status rewritten by [f] at the time [t]. *)
Definition touched (f : string -> gmap string string -> gmap string string)
    (t : string) (st : ObjState) : ObjState :=
  {| objLabels := objLabels st; objStatus := f t (objStatus st) |}.

(** The label that ties a version to its application. *)
Definition appIdKey : string := "application.kubesphere.io/app-id".

(** The loop of a status stage: for each item, read the clock, rewrite the
    item with [touch], send the status update, and return at the first
    error.  [updateAppStatus_items] and [updateVersionStatus_versions] are
    this loop. *)
Fixpoint statusLoop (gvr : GroupVersionResource)
    (touch : string -> Unstructured -> Unstructured)
    (fmt : string) (args : Unstructured -> error -> list Arg)
    (items : list Unstructured) : M (option error) :=
  match items with
  | [] => ret None
  | item :: rest =>
    currentTime ← now;
    let item := touch currentTime item in
    err ← ResourceUpdateStatus gvr item;
    match err with
    | Some e => logf ErrorLevel fmt (args item e);; ret (Some e)
    | None => statusLoop gvr touch fmt args rest
    end
  end.

(** An API server that refuses no call. *)
Definition neverRefuses (e : Env) : Prop :=
  forall hist call, faults e hist call = None.

(** The stored object [n] of the kind is the one of [s0] with its status
    rewritten by [f] at a reading of the clock. *)
Definition rewrittenAt (gvr : GroupVersionResource)
    (f : string -> gmap string string -> gmap string string) (e : Env)
    (s0 : gmap string ObjState) (s : Store) (n : string) : Prop :=
  exists hist, objects gvr s !! n = touched f (clock e hist) <$> s0 !! n.

(** Every stored object of the kind is as in [s0] or rewritten. *)
Definition partlyRewritten (gvr : GroupVersionResource)
    (f : string -> gmap string string -> gmap string string) (e : Env)
    (s0 : gmap string ObjState) (s : Store) : Prop :=
  forall n, objects gvr s !! n = s0 !! n \/ rewrittenAt gvr f e s0 s n.

(** An item that was listed from [s0], before or after a rewriting. *)
Definition listedFrom
    (f : string -> gmap string string -> gmap string string) (e : Env)
    (s0 : gmap string ObjState) (item : Unstructured) : Prop :=
  exists st0, s0 !! metaName item = Some st0 /\
    (status item = objStatus st0 \/
     exists hist, status item = f (clock e hist) (objStatus st0)).

(** * Sample worlds *)

Definition respond (code : Z) (appName : string) : HttpResult :=
  Responded {| StatusCode := code; RespBody := []; ResultAppName := appName |}.

Definition sampleEnv (n : list Event -> Request -> HttpResult) (index : IndexFetch)
    (f : list Event -> ApiCall -> option error) : Env :=
  {| net := n;
     ingest := fun _ _ _ s => s;
     faults := f;
     clock := fun _ => "2024-05-01T10:00:00Z";
     helmRepo := fun _ => index;
     kubeConfig := ClientReady;
     readFile := fun _ => Ok "file-token" |}.

Definition sampleWorld (e : Env) (lim : Z) (s : Store) : World :=
  {| env := e; serverURL := "http://ks"; token := "secret";
     repoURL := "http://charts"; limit := lim; cluster := s; trace := [] |}.

Definition emptyStore : Store :=
  {| applications := ∅; applicationversions := ∅ |}.

Definition sampleClient : Client :=
  {| clientHeader := {[ "Content-Type" := "application/json" ]};
     clientTimeout := 5000 |}.

Definition nginx (v : string) (deprecated : bool) : ChartVersion :=
  {| Name := "nginx"; ChartVer := v; Deprecated := deprecated;
     URLs := ["http://charts/nginx-" +:+ v +:+ ".tgz"] |}.

(** Every request is answered with 200, and every accepted POST names the
    application "app-1". *)
Definition allOK : list Event -> Request -> HttpResult :=
  fun _ _ => respond 200 "app-1".

Definition noFaults : list Event -> ApiCall -> option error :=
  fun _ _ => None.

(** Downloads are answered with 200, uploads with [code]. *)
Definition uploadsGet (code : Z) : list Event -> Request -> HttpResult :=
  fun _ req =>
    if String.eqb (Method req) "POST" then respond code "" else respond 200 "".

(** The cluster API refuses the update call that comes after [n] accepted
    updates. *)
Definition refuseAfter (n : nat) : list Event -> ApiCall -> option error :=
  fun hist call =>
    match call with
    | CallList _ _ => None
    | _ =>
      if Nat.eqb (length (List.filter
                            (fun ev => match ev with
                                       | EvApi (CallList _ _) _ => false
                                       | EvApi _ None => true
                                       | _ => false
                                       end) hist)) n
      then Some "conflict" else None
    end.

Definition threeApps : Store :=
  {| applications :=
       {[ "a" := {| objLabels := Some {[ categoryKey := mark ]}; objStatus := ∅ |};
          "b" := {| objLabels := Some {[ categoryKey := mark ]}; objStatus := ∅ |};
          "c" := {| objLabels := Some {[ categoryKey := mark ]}; objStatus := ∅ |} ]};
     applicationversions := ∅ |}.

(** Three applications and one version of the application "a". *)
Definition appsWithVersion : Store :=
  {| applications := applications threeApps;
     applicationversions :=
       {[ "a-1.0" := {| objLabels := Some {[ "application.kubesphere.io/app-id" := "a" ]};
                        objStatus := ∅ |} ]} |}.

Definition oneChart : IndexFetch := Loaded [("nginx", [nginx "1.0" false])].

(** * Properties *)

(** ** The uploader *)

Lemma since_app (w w' : World) (evs : list Event) :
  trace w' = trace w ++ evs -> since w w' = evs.
Proof. intros H. unfold since. rewrite H. apply drop_app_length. Qed.

(** The loop, iteration by iteration. *)
Lemma uploadEntries_step c appID success entry rest w :
  uploadEntries c appID success (entry :: rest) w =
  match attempt c appID entry w with
  | (Ret Skipped, w1) => (Ret tt, w1)
  | (Ret Failed, w1) => uploadEntries c appID success rest w1
  | (Ret Uploaded, w1) =>
    if limit w1 <=? success + 1 then (Ret tt, w1)
    else uploadEntries c appID (success + 1) rest (sleep 200 w1).2
  | (Panic msg, w1) => (Panic msg, w1)
  | (Fatal, w1) => (Fatal, w1)
  | (OsExit code, w1) => (OsExit code, w1)
  end.
Proof.
  cbn [uploadEntries]. unfold attempt.
  destruct (Deprecated entry); [reflexivity|].
  destruct (URLs entry) as [|url0 urls]; [reflexivity|].
  unfold mbind, M_bind, bind, Get, Post, execute, get, logf, emit, ret, sleep.
  cbn.
  destruct (net _ _ _) as [err|resp]; [reflexivity|].
  destruct (IsError resp); cbn; [reflexivity|].
  destruct (net _ _ _) as [err|resp']; [reflexivity|].
  destruct (IsError resp'); cbn; [reflexivity|].
  destruct (limit w <=? success + 1); reflexivity.
Qed.

Lemma gets_app evs1 evs2 : gets (evs1 ++ evs2) = gets evs1 ++ gets evs2.
Proof. apply omap_app. Qed.

Lemma posts_app evs1 evs2 : posts (evs1 ++ evs2) = posts evs1 ++ posts evs2.
Proof. apply omap_app. Qed.

Lemma successes_app evs1 evs2 :
  successes (evs1 ++ evs2) = successes evs1 + successes evs2.
Proof. unfold successes. rewrite List.filter_app, length_app. lia. Qed.

(** What one iteration does: it leaves the variables alone, adds events,
    and its verdict tells how many GETs and uploads there were. *)
Lemma attempt_inv c appID entry w :
  let r := (attempt c appID entry w).1 in
  let w1 := (attempt c appID entry w).2 in
  env w1 = env w /\ limit w1 = limit w /\ serverURL w1 = serverURL w /\
  exists evs,
    trace w1 = trace w ++ evs /\
    successes evs = (match r with Ret Uploaded => 1 | _ => 0 end) /\
    Some <$> gets evs =
      (match r with
       | Ret Skipped | Panic _ => []
       | _ => [head (URLs entry)]
       end) /\
    Forall (fun u => u = target (serverURL w) appID) (posts evs) /\
    (r = Ret Skipped <-> Deprecated entry = true) /\
    (forall msg, r = Panic msg -> Deprecated entry = false /\ URLs entry = [] /\ evs = []) /\
    r <> Fatal /\ (forall code, r <> OsExit code) /\
    (existsb failedExchange evs = true <-> r = Ret Failed).
Proof.
  unfold attempt.
  destruct (Deprecated entry) eqn:Hd.
  { cbn. split_and!; try done. eexists; split_and!; try done. }
  destruct (URLs entry) as [|url0 urls] eqn:Hu.
  { cbn. split_and!; try done. exists []. rewrite app_nil_r.
    split_and!; try done. }
  unfold mbind, M_bind, bind, Get, Post, execute, get, logf, emit, ret; cbn.
  destruct (net _ _ _) as [err|resp].
  { cbn. split_and!; try done. eexists. rewrite <- app_assoc.
    split_and!; try done. }
  destruct (IsError resp) eqn:He; cbn.
  { split_and!; try done. eexists. rewrite <- app_assoc.
    split_and!; try done. cbn. by rewrite He. }
  destruct (net _ _ _) as [err|resp'].
  { cbn. split_and!; try done. eexists. rewrite <- !app_assoc.
    split_and!; try done.
    - cbn. repeat constructor.
    - cbn. by rewrite He. }
  destruct (IsError resp') eqn:He'; cbn.
  { split_and!; try done. eexists. rewrite <- !app_assoc.
    split_and!; try done.
    - cbn. unfold successes. cbn. rewrite He'. reflexivity.
    - cbn. repeat constructor.
    - cbn. by rewrite He, He'. }
  split_and!; try done. eexists. rewrite <- !app_assoc.
  split_and!; try done.
  - cbn. unfold successes. cbn. rewrite He'. reflexivity.
  - cbn. repeat constructor.
  - cbn. by rewrite He, He'.
Qed.

(** What the loop over the entries of one package does, for any values of
    [appID] and [success] at its start: the GETs are those of the first [n]
    entries, in order; none of these is deprecated; the loop ends normally
    or with the panic of an entry without URL. *)
Lemma uploadEntries_inv c appID entries : forall success w,
  let r := (uploadEntries c appID success entries w).1 in
  let w' := (uploadEntries c appID success entries w).2 in
  env w' = env w /\ limit w' = limit w /\ serverURL w' = serverURL w /\
  exists evs n,
    trace w' = trace w ++ evs /\
    (n <= length entries)%nat /\
    Some <$> gets evs = (fun e => head (URLs e)) <$> take n entries /\
    Forall (fun e => Deprecated e = false) (take n entries) /\
    successes evs <= Z.max 1 (limit w - success) /\
    Forall (fun u => u = target (serverURL w) appID) (posts evs) /\
    (r = Ret tt \/ exists msg, r = Panic msg) /\
    (forall msg, r = Panic msg ->
       exists e, entries !! n = Some e /\ Deprecated e = false /\ URLs e = []) /\
    (r = Ret tt -> success + successes evs < limit w ->
       n = length entries \/
       exists d, entries !! n = Some d /\ Deprecated d = true).
Proof.
  induction entries as [|entry rest IH]; intros success w.
  { cbn. split_and!; try done. exists [], 0%nat. rewrite app_nil_r.
    split_and!; try done; try lia; eauto.
    unfold successes. cbn. lia. }
  cbv zeta. rewrite uploadEntries_step.
  pose proof (attempt_inv c appID entry w) as Ha. cbv zeta in Ha.
  destruct (attempt c appID entry w) as [r1 w1]. cbn [fst snd] in Ha.
  destruct Ha as (He & Hl & Hs & evs1 & Ht & Hsucc & Hget & Hpost & Hskip & Hpanic & Hf & Hx & _).
  assert (r1 <> Ret Skipped -> Deprecated entry = false) as Hnd.
  { intros Hne. destruct (Deprecated entry); [|done].
    destruct Hskip as [_ Hk]. by destruct Hne; apply Hk. }
  destruct r1 as [[| |]|msg| |code]; cbn [fst snd].
  - (* deprecated *)
    split_and!; try done. exists evs1, 0%nat.
    split_and!; try done.
    + lia.
    + rewrite Hsucc. lia.
    + by left.
    + intros _ _. right. exists entry. split; [done|]. by apply Hskip.
  - (* a failed entry: the rest runs with the same counter *)
    specialize (IH success w1). cbv zeta in IH.
    destruct IH as (He' & Hl' & Hs' & evs2 & n & Ht' & Hn & Hget' & Hdep & Hsucc' & Hpost' & Hr & Hp & Hall).
    split_and!; try congruence.
    exists (evs1 ++ evs2), (S n).
    split_and!.
    + rewrite Ht', Ht. by rewrite app_assoc.
    + cbn. lia.
    + rewrite gets_app, fmap_app, Hget, Hget'. done.
    + cbn. constructor; [by apply Hnd|done].
    + rewrite successes_app, Hsucc. rewrite Hl in Hsucc'. lia.
    + rewrite posts_app. apply Forall_app. split; [done|]. by rewrite <- Hs.
    + done.
    + intros msg Hm. destruct (Hp msg Hm) as (e & Hin & ?). by exists e.
    + intros Hret Hlt. rewrite successes_app, Hsucc in Hlt.
      destruct (Hall Hret) as [->|(d & Hd & Hdd)]; [rewrite Hl; lia|by left|].
      right. exists d. done.
  - (* an upload *)
    destruct (limit w1 <=? success + 1) eqn:Hlim; cbn [fst snd].
    + apply Z.leb_le in Hlim.
      split_and!; try done. exists evs1, 1%nat.
      split_and!; try done.
      * cbn. lia.
      * cbn. constructor; [by apply Hnd|done].
      * rewrite Hsucc. lia.
      * by left.
      * intros _. rewrite Hsucc. lia.
    + apply Z.leb_gt in Hlim.
      specialize (IH (success + 1) (sleep 200 w1).2). cbv zeta in IH.
      remember (sleep 200 w1).2 as w2 eqn:Hw2.
      assert (env w2 = env w1 /\ limit w2 = limit w1 /\
              serverURL w2 = serverURL w1 /\
              trace w2 = trace w1 ++ [EvSleep 200]) as (E1 & E2 & E3 & E4)
        by (by subst w2).
      clear Hw2.
      destruct IH as (He' & Hl' & Hs' & evs2 & n & Ht' & Hn & Hget' & Hdep & Hsucc' & Hpost' & Hr & Hp & Hall).
      rewrite E2 in Hsucc', Hall. rewrite E3 in Hpost'.
      split_and!; try congruence.
      exists (evs1 ++ [EvSleep 200] ++ evs2), (S n).
      split_and!.
      * rewrite Ht', E4, Ht. by rewrite <- !app_assoc.
      * cbn. lia.
      * rewrite !gets_app, !fmap_app, Hget, Hget'. reflexivity.
      * cbn. constructor; [by apply Hnd|done].
      * rewrite !successes_app, Hsucc.
        change (successes [EvSleep 200]) with 0.
        rewrite Hl in *. lia.
      * rewrite !posts_app. apply Forall_app. split; [done|].
        apply Forall_app. split; [constructor|]. by rewrite <- Hs.
      * done.
      * intros msg Hm. destruct (Hp msg Hm) as (e & Hin & ?). by exists e.
      * intros Hret Hlt. rewrite !successes_app, Hsucc in Hlt.
        change (successes [EvSleep 200]) with 0 in Hlt.
        destruct (Hall Hret) as [->|(d & Hd & Hdd)]; [rewrite Hl; lia|by left|].
        right. exists d. done.
  - (* no URL *)
    destruct (Hpanic msg eq_refl) as (Hnd' & Hu & ->).
    split_and!; try done. exists [], 0%nat.
    split_and!; try done.
    + lia.
    + unfold successes. cbn. lia.
    + right. by exists msg.
    + intros msg' _. by exists entry.
  - done.
  - by destruct (Hx code).
Qed.

(** Entries behind a deprecated one do not matter. *)
Lemma uploadEntries_cut c appID pre d post :
  Deprecated d = true ->
  forall success w,
    uploadEntries c appID success (pre ++ d :: post) w =
    uploadEntries c appID success (pre ++ [d]) w.
Proof.
  intros Hd. induction pre as [|entry pre IH]; intros success w.
  - cbn [app uploadEntries]. by rewrite Hd.
  - cbn [app]. rewrite !uploadEntries_step.
    destruct (attempt c appID entry w) as [[[| |]|msg| |code] w1]; try done.
    destruct (limit w1 <=? success + 1); [done|]. apply IH.
Qed.

(** The loop over the packages: every POST goes to the create endpoint,
    and the loop ends normally or with the panic of an entry without
    URL. *)
Lemma uploadPackages_inv c index : forall w,
  let r := (uploadPackages c index w).1 in
  let w' := (uploadPackages c index w).2 in
  env w' = env w /\ limit w' = limit w /\ serverURL w' = serverURL w /\
  exists evs,
    trace w' = trace w ++ evs /\
    Forall (fun u => u = createURL (serverURL w)) (posts evs) /\
    (r = Ret tt \/ exists msg, r = Panic msg) /\
    (forall msg, r = Panic msg ->
       exists p e, p ∈ index /\ e ∈ p.2 /\ Deprecated e = false /\ URLs e = []).
Proof.
  induction index as [|[name entries] more IH]; intros w.
  { cbn. split_and!; try done. exists []. rewrite app_nil_r.
    split_and!; try done; eauto. }
  cbv zeta. cbn [uploadPackages]. unfold mbind, M_bind, bind.
  pose proof (uploadEntries_inv c "" entries 0 w) as Hu. cbv zeta in Hu.
  destruct (uploadEntries c "" 0 entries w) as [r1 w1]. cbn [fst snd] in Hu.
  destruct Hu as (He & Hl & Hs & evs1 & n & Ht & _ & _ & _ & _ & Hpost & Hr & Hp & _).
  destruct Hr as [->|[msg ->]].
  - specialize (IH w1). cbv zeta in IH.
    destruct IH as (He' & Hl' & Hs' & evs2 & Ht' & Hpost' & Hr' & Hp').
    split_and!; try congruence. exists (evs1 ++ evs2). split_and!.
    + rewrite Ht', Ht. by rewrite app_assoc.
    + rewrite posts_app. apply Forall_app. split; [done|]. by rewrite <- Hs.
    + done.
    + intros msg Hm. destruct (Hp' msg Hm) as (p & e & Hin & ?).
      exists p, e. split; [by right|done].
  - cbn [fst snd]. split_and!; try done. exists evs1. split_and!; try done.
    + right. by exists msg.
    + intros msg' _. destruct (Hp msg eq_refl) as (e & Hin & ?).
      exists (name, entries), e. split; [by left|].
      split; [|done]. by eapply list_elem_of_lookup_2.
Qed.

(** [uploadChart] returns [nil] whenever it returns. *)
Lemma uploadChart_outcome c w :
  let r := (uploadChart c w).1 in
  r = Ret None \/ r = Fatal \/ exists msg, r = Panic msg.
Proof.
  cbv zeta. unfold uploadChart, mbind, M_bind, bind, get.
  destruct (helmRepo (env w) (repoURL w)) as [e|e|e|index]; cbn; eauto.
  pose proof (uploadPackages_inv c index w) as Hu. cbv zeta in Hu.
  destruct (uploadPackages c index w) as [r1 w1]. cbn [fst snd] in Hu.
  destruct Hu as (_ & _ & _ & evs & _ & _ & [->|[msg ->]] & _); cbn; eauto.
Qed.

(** C1 (the code departs from the specification).  The first upload of a package
    goes to the create endpoint, but so does every later one: [appID] is
    never assigned, so each POST of [uploadChart] targets
    [<server>/kapis/application.kubesphere.io/v2/apps].  With a limit of 2
    and two versions of one package that both upload, the second POST goes
    to the create endpoint again, not to the versions endpoint of the
    application "app-1" that the first response named. *)
Theorem uploadChart_never_adds_version :
  (forall c w,
     Forall (fun u => u = createURL (serverURL w))
       (posts (since w (uploadChart c w).2))) /\
  (let index := Loaded [("nginx", [nginx "1.0" false; nginx "2.0" false])] in
   let w := sampleWorld (sampleEnv allOK index noFaults) 2 emptyStore in
   let w' := (uploadChart sampleClient w).2 in
   (uploadChart sampleClient w).1 = Ret None /\
   successes (since w w') = 2 /\
   posts (since w w') =
     ["http://ks/kapis/application.kubesphere.io/v2/apps";
      "http://ks/kapis/application.kubesphere.io/v2/apps"] /\
   versionsURL "http://ks" "app-1" ∉ posts (since w w')).
Proof.
  split.
  - intros c w. unfold uploadChart, mbind, M_bind, bind, get.
    destruct (helmRepo (env w) (repoURL w)) as [e|e|e|index]; cbn [fst snd];
      try (erewrite since_app by reflexivity; by repeat constructor).
    pose proof (uploadPackages_inv c index w) as Hu. cbv zeta in Hu.
    destruct (uploadPackages c index w) as [r1 w1]. cbn [fst snd] in Hu.
    destruct Hu as (_ & _ & _ & evs & Ht & Hpost & _).
    assert (since w w1 = evs) as Hs by by apply since_app.
    destruct r1; cbn [fst snd ret]; by rewrite Hs.
  - vm_compute. split_and!; try reflexivity.
    intros H. repeat (apply elem_of_cons in H as [H|H]; [discriminate H|]).
    by apply elem_of_nil in H.
Qed.

Lemma uploadEntries_trace c appID success entries w :
  exists evs, trace (uploadEntries c appID success entries w).2 = trace w ++ evs.
Proof.
  destruct (uploadEntries_inv c appID entries success w)
    as (_ & _ & _ & evs & _ & Ht & _).
  by exists evs.
Qed.

(** An iteration with a failed exchange is a [continue]: the rest of the
    package runs with the counter as it was. *)
Lemma uploadEntries_failed c appID success entry rest w :
  existsb failedExchange (since w (attempt c appID entry w).2) = true ->
  uploadEntries c appID success (entry :: rest) w =
  uploadEntries c appID success rest (attempt c appID entry w).2 /\
  successes (since w (attempt c appID entry w).2) = 0.
Proof.
  intros Hf. rewrite uploadEntries_step.
  pose proof (attempt_inv c appID entry w) as Ha. cbv zeta in Ha.
  destruct (attempt c appID entry w) as [r1 w1]. cbn [fst snd] in *.
  destruct Ha as (_ & _ & _ & evs & Ht & Hsucc & _ & _ & _ & _ & _ & _ & Hfail).
  rewrite (since_app _ _ _ Ht) in *. apply Hfail in Hf. subst r1. done.
Qed.

(** An iteration whose upload brings the counter to the limit is the last
    of the package. *)
Lemma uploadEntries_reached c appID success entry rest w :
  successes (since w (attempt c appID entry w).2) = 1 ->
  limit w <= success + 1 ->
  uploadEntries c appID success (entry :: rest) w =
  (Ret tt, (attempt c appID entry w).2).
Proof.
  intros Hs Hlim. rewrite uploadEntries_step.
  pose proof (attempt_inv c appID entry w) as Ha. cbv zeta in Ha.
  destruct (attempt c appID entry w) as [r1 w1]. cbn [fst snd] in *.
  destruct Ha as (_ & Hl & _ & evs & Ht & Hsucc & _).
  rewrite (since_app _ _ _ Ht) in *. rewrite Hs in Hsucc.
  destruct r1 as [[| |]|msg| |code]; try discriminate Hsucc.
  rewrite Hl. by destruct (Z.leb_spec (limit w) (success + 1)); [|lia].
Qed.

(** C3 as stated fails: with a limit of 1 the second entry, which comes
    before the deprecated third one, is never fetched. *)
Lemma uploadEntries_limit_before_deprecated :
  let entries := [nginx "3.0" false; nginx "2.0" false; nginx "1.0" true] in
  let w := sampleWorld (sampleEnv allOK (Loaded []) noFaults) 1 emptyStore in
  let evs := since w (uploadEntries sampleClient "" 0 entries w).2 in
  (Deprecated <$> entries) = [false; false; true] /\
  gets evs = ["http://charts/nginx-3.0.tgz"] /\
  "http://charts/nginx-2.0.tgz" ∉ gets evs.
Proof.
  vm_compute. split_and!; try reflexivity.
  intros H. repeat (apply elem_of_cons in H as [H|H]; [discriminate H|]).
  by apply elem_of_nil in H.
Qed.

(** C3 (amended).  In a package whose first deprecated entry is [d], the
    entries after [d] never matter; the GETs are those of the entries
    before [d], in index order, from the first one on; and all entries
    before [d] are fetched when the loop returns without the success count
    having reached the limit. *)
Theorem uploadEntries_stops_at_deprecated c appID success pre d post w :
  Forall (fun e => Deprecated e = false) pre ->
  Deprecated d = true ->
  let run := uploadEntries c appID success (pre ++ d :: post) w in
  run = uploadEntries c appID success (pre ++ [d]) w /\
  exists n,
    (n <= length pre)%nat /\
    Some <$> gets (since w run.2) = (fun e => head (URLs e)) <$> take n pre /\
    (run.1 = Ret tt ->
     success + successes (since w run.2) < limit w ->
     n = length pre).
Proof.
  intros Hpre Hd. cbv zeta. split; [by apply uploadEntries_cut|].
  destruct (uploadEntries_inv c appID (pre ++ d :: post) success w)
    as (_ & _ & _ & evs & n & Ht & Hn & Hget & Hdep & _ & _ & _ & _ & Hall).
  rewrite (since_app _ _ _ Ht).
  assert (n <= length pre)%nat as Hle.
  { destruct (decide (n <= length pre)%nat) as [|Hgt]; [done|].
    assert ((pre ++ d :: post) !! length pre = Some d) as Hat
      by by rewrite list_lookup_middle.
    assert (take n (pre ++ d :: post) !! length pre = Some d) as Hat'
      by (rewrite lookup_take_lt by lia; done).
    rewrite Forall_lookup in Hdep. specialize (Hdep _ _ Hat'). congruence. }
  exists n. split_and!; [done| |].
  - rewrite Hget. by rewrite take_app_le.
  - intros Hr Hlt. destruct (Hall Hr Hlt) as [Hlen|(d' & Hat & Hd')].
    + rewrite length_app in Hlen. cbn in Hlen. lia.
    + destruct (decide (n = length pre)) as [|Hne]; [done|].
      rewrite lookup_app_l in Hat by lia.
      rewrite Forall_lookup in Hpre. specialize (Hpre _ _ Hat). congruence.
Qed.

Lemma uploadEntries_stops_at_deprecated_witness :
  let pre := [nginx "3.0" false; nginx "2.0" false] in
  let d := nginx "1.0" true in
  let post := [nginx "0.9" false] in
  let w := sampleWorld (sampleEnv allOK (Loaded []) noFaults) 5 emptyStore in
  let run := uploadEntries sampleClient "" 0 (pre ++ d :: post) w in
  run = uploadEntries sampleClient "" 0 (pre ++ [d]) w /\
  exists n,
    (n <= length pre)%nat /\
    Some <$> gets (since w run.2) = (fun e => head (URLs e)) <$> take n pre /\
    (run.1 = Ret tt ->
     0 + successes (since w run.2) < limit w ->
     n = length pre).
Proof.
  cbv zeta.
  apply (uploadEntries_stops_at_deprecated sampleClient "" 0
           [nginx "3.0" false; nginx "2.0" false] (nginx "1.0" true)
           [nginx "0.9" false]).
  - repeat constructor.
  - reflexivity.
Defined.

(** C4 as stated fails for a limit below 1: the limit is compared only
    after the counter was incremented, so with [--limit 0] the first upload
    that goes through is still performed. *)
Lemma uploadEntries_limit_zero :
  let w := sampleWorld (sampleEnv allOK (Loaded []) noFaults) 0 emptyStore in
  let evs := since w (uploadEntries sampleClient "" 0 [nginx "1.0" false] w).2 in
  limit w = 0 /\ successes evs = 1.
Proof. vm_compute. split; reflexivity. Qed.

(** C4 (amended).  A package gets at most [max 1 K] uploads, which is [K]
    for every limit [K >= 1]; the iteration whose upload brings the counter
    to [K] or beyond ends the package, whatever entries remain; an
    iteration with a failed exchange leaves the counter as it was and adds
    no upload. *)
Theorem uploadEntries_at_most_limit c entries w :
  let evs := since w (uploadEntries c "" 0 entries w).2 in
  successes evs <= Z.max 1 (limit w) /\
  (1 <= limit w -> successes evs <= limit w) /\
  (forall appID success entry rest,
     successes (since w (attempt c appID entry w).2) = 1 ->
     limit w <= success + 1 ->
     uploadEntries c appID success (entry :: rest) w =
     (Ret tt, (attempt c appID entry w).2)) /\
  (forall appID success entry rest,
     existsb failedExchange (since w (attempt c appID entry w).2) = true ->
     uploadEntries c appID success (entry :: rest) w =
     uploadEntries c appID success rest (attempt c appID entry w).2 /\
     successes (since w (attempt c appID entry w).2) = 0).
Proof.
  cbv zeta.
  destruct (uploadEntries_inv c "" entries 0 w)
    as (_ & _ & _ & evs & n & Ht & _ & _ & _ & Hsucc & _).
  rewrite (since_app _ _ _ Ht). rewrite Z.sub_0_r in Hsucc.
  split_and!.
  - done.
  - lia.
  - intros. by apply uploadEntries_reached.
  - intros. by apply uploadEntries_failed.
Qed.

Lemma uploadEntries_at_most_limit_witness :
  let entries := [nginx "3.0" false; nginx "2.0" false; nginx "1.0" false] in
  let w := sampleWorld (sampleEnv allOK (Loaded []) noFaults) 2 emptyStore in
  1 <= limit w /\
  successes (since w (uploadEntries sampleClient "" 0 entries w).2) <= limit w /\
  uploadEntries sampleClient "" 1 entries w =
  (Ret tt, (attempt sampleClient "" (nginx "3.0" false) w).2).
Proof.
  cbv zeta.
  pose proof (uploadEntries_at_most_limit sampleClient
                [nginx "3.0" false; nginx "2.0" false; nginx "1.0" false]
                (sampleWorld (sampleEnv allOK (Loaded []) noFaults) 2 emptyStore))
    as (_ & Hle & Hstop & _).
  split_and!.
  - vm_compute. discriminate.
  - apply Hle. vm_compute. discriminate.
  - apply Hstop.
    + vm_compute. reflexivity.
    + vm_compute. discriminate.
Defined.

(** C5 as stated fails for the non-2xx responses that [IsError] lets pass:
    an upload answered with 304 counts as a success, and with a limit of 1
    the next entry of the package is not processed. *)
Lemma uploadEntries_304_is_success :
  let entries := [nginx "2.0" false; nginx "1.0" false] in
  let w := sampleWorld (sampleEnv (uploadsGet 304) (Loaded []) noFaults) 1
             emptyStore in
  let evs := since w (uploadEntries sampleClient "" 0 entries w).2 in
  existsb non2xx evs = true /\
  gets evs = ["http://charts/nginx-2.0.tgz"] /\
  successes evs = 1.
Proof. vm_compute. split_and!; reflexivity. Qed.

(** C5 (amended).  A failed exchange of an entry (a GET or a POST without
    response, or answered with a status above 399) is a [continue]: the
    loop goes on with the next entry of the package, the counter
    unchanged.  The loop over a package ends normally unless one of its
    entries is not deprecated and has no URL, and [uploadChart] never
    returns an error. *)
Theorem uploadEntries_failure_continues :
  (forall c appID success entry rest w,
     existsb failedExchange (since w (attempt c appID entry w).2) = true ->
     uploadEntries c appID success (entry :: rest) w =
     uploadEntries c appID success rest (attempt c appID entry w).2) /\
  (forall c appID success entries w,
     (uploadEntries c appID success entries w).1 = Ret tt \/
     exists e, e ∈ entries /\ Deprecated e = false /\ URLs e = []) /\
  (forall c w e, (uploadChart c w).1 <> Ret (Some e)).
Proof.
  split_and!.
  - intros. by apply uploadEntries_failed.
  - intros c appID success entries w.
    destruct (uploadEntries_inv c appID entries success w)
      as (_ & _ & _ & evs & n & _ & _ & _ & _ & _ & _ & Hr & Hp & _).
    destruct Hr as [Hr|[msg Hm]]; [by left|right].
    destruct (Hp msg Hm) as (e & Hin & ?). exists e.
    split; [|done]. by eapply list_elem_of_lookup_2.
  - intros c w e He.
    destruct (uploadChart_outcome c w) as [H|[H|[msg H]]]; congruence.
Qed.

Lemma uploadEntries_failure_continues_witness :
  let w := sampleWorld (sampleEnv (uploadsGet 500) (Loaded []) noFaults) 1
             emptyStore in
  let entry := nginx "2.0" false in
  existsb failedExchange (since w (attempt sampleClient "" entry w).2) = true /\
  uploadEntries sampleClient "" 0 [entry; nginx "1.0" false] w =
  uploadEntries sampleClient "" 0 [nginx "1.0" false]
    (attempt sampleClient "" entry w).2.
Proof.
  cbv zeta.
  assert (existsb failedExchange
            (since (sampleWorld (sampleEnv (uploadsGet 500) (Loaded []) noFaults) 1
                      emptyStore)
               (attempt sampleClient "" (nginx "2.0" false)
                  (sampleWorld (sampleEnv (uploadsGet 500) (Loaded []) noFaults) 1
                     emptyStore)).2) = true) as H
    by (vm_compute; reflexivity).
  split; [exact H|].
  exact (proj1 uploadEntries_failure_continues sampleClient "" 0
           (nginx "2.0" false) [nginx "1.0" false] _ H).
Defined.

Lemma attempt_first_get c appID entry w url0 urls :
  Deprecated entry = false ->
  URLs entry = url0 :: urls ->
  exists evs,
    trace (attempt c appID entry w).2 =
    trace w ++ EvHTTP (download c url0) (net (env w) (trace w) (download c url0)) :: evs.
Proof.
  intros Hd Hu. unfold attempt. rewrite Hd, Hu.
  unfold mbind, M_bind, bind, Get, Post, execute, get, logf, emit, ret; cbn.
  fold (download c url0).
  destruct (net _ _ (download c url0)) as [err|resp]; cbn.
  { eexists. by rewrite <- app_assoc. }
  destruct (IsError resp); cbn.
  { eexists. by rewrite <- app_assoc. }
  destruct (net _ _ _) as [err|resp']; cbn.
  { eexists. by rewrite <- !app_assoc. }
  destruct (IsError resp'); cbn; eexists; by rewrite <- !app_assoc.
Qed.

(** C9.  An entry that is not deprecated and has no URL makes the loop
    panic on [entry.URLs[0]], before any request; an entry with URLs is
    fetched from its first URL, whatever the other URLs, [appID] and the
    counter are.  The loop over a package returns normally unless the entry
    it has reached, after the GETs of the entries before it, is not
    deprecated and has no URL; so when every entry that is not deprecated
    has a URL, the loop over the packages ends normally and [uploadChart]
    returns [nil]. *)
Theorem uploadEntries_reads_first_url :
  (forall c appID success entry rest w,
     Deprecated entry = false ->
     URLs entry = [] ->
     uploadEntries c appID success (entry :: rest) w =
     (Panic "index out of range [0] with length 0", w)) /\
  (forall c appID success entry rest w url0 urls,
     Deprecated entry = false ->
     URLs entry = url0 :: urls ->
     exists evs,
       since w (uploadEntries c appID success (entry :: rest) w).2 =
       EvHTTP (download c url0) (net (env w) (trace w) (download c url0)) :: evs) /\
  (forall c appID success entries w,
     let run := uploadEntries c appID success entries w in
     run.1 = Ret tt \/
     exists msg e,
       run.1 = Panic msg /\
       entries !! length (gets (since w run.2)) = Some e /\
       Deprecated e = false /\ URLs e = []) /\
  (forall c index w,
     (forall p e, p ∈ index -> e ∈ p.2 -> Deprecated e = false -> URLs e <> []) ->
     (uploadPackages c index w).1 = Ret tt /\
     (helmRepo (env w) (repoURL w) = Loaded index ->
      (uploadChart c w).1 = Ret None)).
Proof.
  split_and!.
  - intros c appID success entry rest w Hd Hu.
    cbn [uploadEntries]. by rewrite Hd, Hu.
  - intros c appID success entry rest w url0 urls Hd Hu.
    destruct (attempt_first_get c appID entry w url0 urls Hd Hu) as (evs1 & Ht).
    rewrite uploadEntries_step.
    destruct (attempt c appID entry w) as [r1 w1]. cbn [fst snd] in Ht.
    destruct r1 as [[| |]|msg| |code]; cbn [fst snd];
      try (exists evs1; by apply since_app).
    + destruct (uploadEntries_trace c appID success rest w1) as (evs2 & Ht2).
      exists (evs1 ++ evs2). apply since_app. rewrite Ht2, Ht.
      by rewrite <- app_assoc.
    + destruct (limit w1 <=? success + 1); cbn [fst snd];
        [exists evs1; by apply since_app|].
      destruct (uploadEntries_trace c appID (success + 1) rest (sleep 200 w1).2)
        as (evs2 & Ht2).
      exists (evs1 ++ [EvSleep 200] ++ evs2). apply since_app.
      rewrite Ht2. cbn. rewrite Ht. by rewrite <- !app_assoc.
  - intros c appID success entries w. cbv zeta.
    destruct (uploadEntries_inv c appID entries success w)
      as (_ & _ & _ & evs & n & Ht & Hn & Hget & _ & _ & _ & Hr & Hp & _).
    destruct Hr as [Hr|[msg Hm]]; [by left|right].
    destruct (Hp msg Hm) as (e & Hat & Hd & Hu). exists msg, e.
    split_and!; try done. rewrite (since_app _ _ _ Ht).
    apply (f_equal length) in Hget. rewrite !length_fmap, length_take in Hget.
    rewrite Hget. by rewrite Nat.min_l.
  - intros c index w Hpre.
    assert ((uploadPackages c index w).1 = Ret tt) as Hret.
    { destruct (uploadPackages_inv c index w)
        as (_ & _ & _ & evs & _ & _ & Hr & Hp).
      destruct Hr as [Hr|[msg Hm]]; [done|].
      destruct (Hp msg Hm) as (p & e & Hin & Hin' & Hd & Hu).
      by destruct (Hpre p e Hin Hin' Hd). }
    split; [done|].
    intros Hidx. unfold uploadChart, mbind, M_bind, bind, get. rewrite Hidx.
    destruct (uploadPackages c index w) as [r1 w1]. cbn [fst] in Hret.
    by subst r1.
Qed.

Lemma uploadEntries_reads_first_url_witness :
  let w := sampleWorld (sampleEnv allOK (Loaded []) noFaults) 1 emptyStore in
  let bare := {| Name := "bare"; ChartVer := "1.0"; Deprecated := false;
                 URLs := [] |} in
  let two := {| Name := "two"; ChartVer := "1.0"; Deprecated := false;
                URLs := ["http://a/two.tgz"; "http://b/two.tgz"] |} in
  uploadEntries sampleClient "" 0 [bare; two] w =
    (Panic "index out of range [0] with length 0", w) /\
  (exists evs,
     since w (uploadEntries sampleClient "" 0 [two; bare] w).2 =
     EvHTTP (download sampleClient "http://a/two.tgz")
       (net (env w) (trace w) (download sampleClient "http://a/two.tgz")) :: evs) /\
  (uploadPackages sampleClient [("two", [two])] w).1 = Ret tt.
Proof.
  cbv zeta. split_and!.
  - apply (proj1 uploadEntries_reads_first_url); reflexivity.
  - eapply (proj1 (proj2 uploadEntries_reads_first_url)); reflexivity.
  - apply (proj2 (proj2 (proj2 uploadEntries_reads_first_url))).
    intros p e Hp He Hd.
    apply list_elem_of_singleton in Hp. subst p.
    apply list_elem_of_singleton in He. subst e. discriminate.
Defined.

(** ** The reconciliation stages *)

Lemma replay_app e evs1 : forall hist evs2 s,
  replay e hist (evs1 ++ evs2) s =
  replay e (hist ++ evs1) evs2 (replay e hist evs1 s).
Proof.
  induction evs1 as [|ev evs1 IH]; intros hist evs2 s; cbn.
  - by rewrite app_nil_r.
  - rewrite IH. by rewrite <- app_assoc.
Qed.

Lemma apiErrors_app evs1 evs2 :
  apiErrors (evs1 ++ evs2) = apiErrors evs1 ++ apiErrors evs2.
Proof. apply omap_app. Qed.

Lemma failFast_app mayPanic pre r evs :
  apiErrors pre = [] -> failFast mayPanic r evs -> failFast mayPanic r (pre ++ evs).
Proof.
  intros Hpre. destruct r as [[e|]|msg| |code]; cbn; try done.
  - intros (pre' & call & fmt & args & -> & Hok).
    exists (pre ++ pre'), call, fmt, args. rewrite app_assoc. split; [done|].
    by rewrite apiErrors_app, Hpre, Hok.
  - intros Hok. by rewrite apiErrors_app, Hpre, Hok.
  - intros [Hp Hok]. split; [done|]. by rewrite apiErrors_app, Hpre, Hok.
Qed.

Section Stage.
(** What is known of every event of the stage, and whether the stage
    has a statement that can panic. *)
Variable Q : Event -> Prop.
Variable mayPanic : bool.

Local Abbreviation stageRun := (stageRun Q mayPanic).

Lemma stageRun_done w : stageRun w (Ret None) w.
Proof. split; [done|]. exists []. by rewrite app_nil_r. Qed.

Lemma stageRun_seq w w1 r w' :
  stageRun w (Ret None) w1 -> stageRun w1 r w' -> stageRun w r w'.
Proof.
  intros (He1 & evs1 & Ht1 & HQ1 & Hc1 & Hf1) (He2 & evs2 & Ht2 & HQ2 & Hc2 & Hf2).
  split; [congruence|]. exists (evs1 ++ evs2). split_and!.
  - rewrite Ht2, Ht1. by rewrite app_assoc.
  - by apply Forall_app.
  - rewrite replay_app, <- Hc1, <- Ht1, <- He1. done.
  - by apply failFast_app.
Qed.

(** An update call and the error check that follows it. *)
Lemma stageRun_update call eff fmt args next w :
  (forall err, Q (EvApi call err)) ->
  (forall e, Q (EvLog ErrorLevel fmt (args e))) ->
  (forall s, effect (env w) (trace w) (EvApi call None) s =
             match eff s with Ok s' => s' | Err _ => s end) ->
  (forall w1, env w1 = env w -> trace w1 = trace w ++ [EvApi call None] ->
     stageRun w1 (next w1).1 (next w1).2) ->
  let run := (err ← update call eff;
              match err with
              | Some e => logf ErrorLevel fmt (args e);; ret (Some e)
              | None => next
              end) w in
  stageRun w run.1 run.2.
Proof.
  intros Hcall Hlog Heff Hnext. cbv zeta.
  unfold update, mbind, M_bind, bind, logf, emit, ret.
  destruct (faults (env w) (trace w) call) as [e|] eqn:Hfault; cbn.
  - split; [done|]. eexists. rewrite <- app_assoc. split_and!.
    + done.
    + repeat constructor; done.
    + reflexivity.
    + by exists [], call, fmt, (args e).
  - destruct (eff (cluster w)) as [s'|e] eqn:Hs; cbn.
    + match goal with |- stageRun _ (next ?w1).1 _ =>
        specialize (Hnext w1 eq_refl eq_refl) end.
      eapply stageRun_seq; [|exact Hnext].
      split; [done|]. exists [EvApi call None]. split_and!; try done.
      * by repeat constructor.
      * cbn [replay]. by rewrite Heff, Hs.
    + split; [done|]. eexists. rewrite <- app_assoc. split_and!.
      * done.
      * repeat constructor; done.
      * reflexivity.
      * by exists [], call, fmt, (args e).
Qed.

(** A list call and the error check that follows it. *)
Lemma stageRun_list gvr opts fmt args next w :
  (forall err, Q (EvApi (CallList gvr opts) err)) ->
  (forall e, Q (EvLog ErrorLevel fmt (args e))) ->
  (forall items w1,
     env w1 = env w -> cluster w1 = cluster w ->
     trace w1 = trace w ++ [EvApi (CallList gvr opts) None] ->
     listObjects gvr opts (cluster w) = Ok items ->
     stageRun w1 (next items w1).1 (next items w1).2) ->
  let run := (r ← ResourceList gvr opts;
              match r with
              | Err e => logf ErrorLevel fmt (args e);; ret (Some e)
              | Ok items => next items
              end) w in
  stageRun w run.1 run.2.
Proof.
  intros Hcall Hlog Hnext. cbv zeta.
  unfold ResourceList, mbind, M_bind, bind, logf, emit, ret.
  assert (forall e,
    stageRun w (Ret (Some e))
      (set_trace
         ((trace w ++ [EvApi (CallList gvr opts) (Some e)]) ++
          [EvLog ErrorLevel fmt (args e)])
         (set_trace (trace w ++ [EvApi (CallList gvr opts) (Some e)]) w)))
    as Hfail.
  { intros e. split; [done|]. eexists. rewrite <- app_assoc. split_and!.
    - done.
    - repeat constructor; done.
    - reflexivity.
    - by exists [], (CallList gvr opts), fmt, (args e). }
  destruct (faults (env w) (trace w) (CallList gvr opts)) as [e|]; cbn.
  { apply Hfail. }
  destruct (listObjects gvr opts (cluster w)) as [items|e] eqn:Hl; cbn.
  - match goal with |- stageRun _ (next items ?w1).1 _ =>
      specialize (Hnext items w1 eq_refl eq_refl eq_refl eq_refl) end.
    eapply stageRun_seq; [|exact Hnext].
    split; [done|]. exists [EvApi (CallList gvr opts) None].
    split_and!; try done. by repeat constructor.
  - apply Hfail.
Qed.
End Stage.

(** A run followed by the [if err != nil { return err }] of the caller. *)
Lemma stageRun_then Q mayPanic (m next : M (option error)) w :
  stageRun Q mayPanic w (m w).1 (m w).2 ->
  (forall w1, stageRun Q mayPanic w1 (next w1).1 (next w1).2) ->
  let run := (err ← m;
              match err with
              | Some e => ret (Some e)
              | None => next
              end) w in
  stageRun Q mayPanic w run.1 run.2.
Proof.
  intros Hm Hnext. cbv zeta. unfold mbind, M_bind, bind.
  destruct (m w) as [[[e|]|msg| |code] w1]; cbn [fst snd] in *; try done.
  eapply stageRun_seq; [exact Hm|apply Hnext].
Qed.

Lemma updateAppStatus_items_run items : forall w,
  stageRun (statusEvent appGVR) false w
    (updateAppStatus_items items w).1 (updateAppStatus_items items w).2.
Proof.
  induction items as [|item rest IH]; intros w.
  { apply stageRun_done. }
  set (item' := SetNestedField (SetNestedField item "active" "state")
                  (clock (env w) (trace w)) "updateTime").
  apply (stageRun_update (statusEvent appGVR) false
           (CallUpdateStatus appGVR item') (applyUpdateStatus appGVR item')
           "Failed to update status for app %s: %v"
           (fun e => [AStr (GetName item'); AErr e])
           (updateAppStatus_items rest) w); try done; intros; apply IH.
Qed.

Lemma updateAppStatus_run opts w :
  stageRun (statusEvent appGVR) false w
    (updateAppStatus opts w).1 (updateAppStatus opts w).2.
Proof.
  apply (stageRun_list (statusEvent appGVR) false appGVR opts
           "Failed to list apps: %v" (fun e => [AErr e])
           updateAppStatus_items w); try done; intros; apply updateAppStatus_items_run.
Qed.

Lemma updateVersionStatus_versions_run item versionItems : forall w,
  stageRun (statusEvent versionGVR) false w
    (updateVersionStatus_versions item versionItems w).1
    (updateVersionStatus_versions item versionItems w).2.
Proof.
  induction versionItems as [|versionItem rest IH]; intros w.
  { apply stageRun_done. }
  set (versionItem' :=
         SetNestedField
           (SetNestedField
              (SetNestedField versionItem (clock (env w) (trace w)) "updated")
              "admin" "userName")
           "active" "state").
  apply (stageRun_update (statusEvent versionGVR) false
           (CallUpdateStatus versionGVR versionItem')
           (applyUpdateStatus versionGVR versionItem')
           "Failed to update version status for app %s: %v"
           (fun e => [AStr (GetName item); AErr e])
           (updateVersionStatus_versions item rest) w); try done; intros; apply IH.
Qed.

Lemma updateVersionStatus_items_run items : forall w,
  stageRun (statusEvent versionGVR) false w
    (updateVersionStatus_items items w).1 (updateVersionStatus_items items w).2.
Proof.
  induction items as [|item rest IH]; intros w.
  { apply stageRun_done. }
  apply (stageRun_list (statusEvent versionGVR) false versionGVR
           {| LabelSelector :=
                "application.kubesphere.io/app-id=" +:+ GetName item |}
           "Failed to list versions for app %s: %v"
           (fun e => [AStr (GetName item); AErr e])
           (fun versionItems =>
              err ← updateVersionStatus_versions item versionItems;
              match err with
              | Some e => ret (Some e)
              | None => updateVersionStatus_items rest
              end) w); try done.
  intros versionItems w1 _ _ _ _.
  apply (stageRun_then (statusEvent versionGVR) false
           (updateVersionStatus_versions item versionItems)
           (updateVersionStatus_items rest) w1).
  - apply updateVersionStatus_versions_run.
  - apply IH.
Qed.

Lemma updateVersionStatus_run opts w :
  stageRun (statusEvent versionGVR) false w
    (updateVersionStatus opts w).1 (updateVersionStatus opts w).2.
Proof.
  apply (stageRun_list (statusEvent versionGVR) false appGVR opts
           "Failed to list apps: %v" (fun e => [AErr e])
           updateVersionStatus_items w); try done; intros; apply updateVersionStatus_items_run.
Qed.

(** ** The label patch *)

Lemma rangeAssign_Some pairs : forall (m : gmap string string) w,
  rangeAssign (Some m) pairs w =
  (Ret (Some (foldl (fun acc kv => <[kv.1 := kv.2]> acc) m pairs)), w).
Proof.
  induction pairs as [|[k v] more IH]; intros m w; [done|].
  cbn [rangeAssign foldl]. unfold mbind, M_bind, bind. cbn. apply IH.
Qed.

Lemma rangeAssign_None pairs w :
  rangeAssign None pairs w =
  match pairs with
  | [] => (Ret None, w)
  | _ :: _ => (Panic "assignment to entry in nil map", w)
  end.
Proof. by destruct pairs as [|[k v] more]. Qed.

Lemma foldl_insert_union (pairs : list (string * string)) :
  NoDup pairs.*1 ->
  forall m : gmap string string,
    foldl (fun acc kv => <[kv.1 := kv.2]> acc) m pairs = list_to_map pairs ∪ m.
Proof.
  induction pairs as [|[k v] more IH]; intros Hnd m.
  - cbn. by rewrite (left_id_L ∅ (∪)).
  - rewrite fmap_cons in Hnd. apply NoDup_cons in Hnd as [Hk Hnd].
    cbn [foldl]. rewrite IH by done.
    change (list_to_map ((k, v) :: more))
      with (<[k := v]> (list_to_map more : gmap string string)).
    rewrite <- insert_union_l. symmetry. apply insert_union_r.
    by apply not_elem_of_list_to_map_1.
Qed.

(** The range over [label] leaves [label ∪ m] in a map that held [m]:
    the pairs of the patch, and the pairs of [m] whose key the patch does
    not have. *)
Lemma rangeAssign_union (label m : gmap string string) w :
  rangeAssign (Some m) (map_to_list label) w = (Ret (Some (label ∪ m)), w).
Proof.
  rewrite rangeAssign_Some, foldl_insert_union by apply NoDup_fst_map_to_list.
  by rewrite list_to_map_to_list.
Qed.

Lemma updateAppLabel_items_run (P : Unstructured -> Prop) label items :
  (forall item, item ∈ items -> P (SetLabels item (patched label (GetLabels item)))) ->
  forall w,
    stageRun (labelEvent P) true w
      (updateAppLabel_items label items w).1 (updateAppLabel_items label items w).2.
Proof.
  induction items as [|item rest IH]; intros HP w.
  { apply stageRun_done. }
  assert (rangeAssign (GetLabels item) (map_to_list label) w =
            (Ret (patched label (GetLabels item)), w) \/
          rangeAssign (GetLabels item) (map_to_list label) w =
            (Panic "assignment to entry in nil map", w)) as [Hr|Hr].
  { destruct (GetLabels item) as [m|].
    - left. apply rangeAssign_union.
    - rewrite rangeAssign_None. destruct (map_to_list label); eauto. }
  - set (item' := SetLabels item (patched label (GetLabels item))).
    assert (updateAppLabel_items label (item :: rest) w =
            (err ← update (CallUpdate appGVR item') (applyUpdate appGVR item');
             match err with
             | Some e =>
               logf ErrorLevel "Failed to update labels for app %s: %v"
                 [AStr (GetName item); AErr e];;
               ret (Some e)
             | None => updateAppLabel_items label rest
             end) w) as ->.
    { cbn [updateAppLabel_items]. unfold mbind at 1, M_bind at 1, bind at 1.
      by rewrite Hr. }
    apply (stageRun_update (labelEvent P) true
             (CallUpdate appGVR item') (applyUpdate appGVR item')
             "Failed to update labels for app %s: %v"
             (fun e => [AStr (GetName item); AErr e])
             (updateAppLabel_items label rest) w); try done.
    + intros err. split; [done|]. apply HP. by left.
    + intros. apply IH. intros it Hit. apply HP. by right.
  - assert (updateAppLabel_items label (item :: rest) w =
            (Panic "assignment to entry in nil map", w)) as ->.
    { cbn [updateAppLabel_items]. unfold mbind at 1, M_bind at 1, bind at 1.
      by rewrite Hr. }
    split; [done|]. exists []. rewrite app_nil_r. by split_and!.
Qed.

(** What a list of applications returns: the selected objects of the
    store, each as it is stored. *)
Lemma listObjects_app opts s items :
  listObjects appGVR opts s = Ok items ->
  forall item,
    item ∈ items <->
    applications s !! metaName item =
      Some {| objLabels := metaLabels item; objStatus := status item |} /\
    selects (LabelSelector opts) (metaLabels item) = true.
Proof.
  unfold listObjects, resource. rewrite decide_True by done.
  intros [= <-] item. rewrite list_elem_of_In, List.filter_In, <- list_elem_of_In.
  rewrite list_elem_of_fmap. split.
  - intros [([name st] & -> & Hin) Hsel]. apply elem_of_map_to_list in Hin.
    cbn in *. rewrite Hin. by destruct st.
  - intros [Hst Hsel]. split; [|done].
    exists (metaName item, {| objLabels := metaLabels item; objStatus := status item |}).
    split; [by destruct item|]. by apply elem_of_map_to_list.
Qed.

(** The selector of [run] selects the objects whose category label is the
    mark; they all carry a label. *)
Lemma selects_listOptions labels :
  selects (LabelSelector listOptions) labels = true ->
  exists m, labels = Some m /\ m !! categoryKey = Some mark.
Proof.
  change (selects (LabelSelector listOptions) labels)
    with (bool_decide (labels ≫= (.!! categoryKey) = Some mark)).
  intros H. apply bool_decide_eq_true in H.
  destruct labels as [m|]; [|done]. by exists m.
Qed.

(** The label loop does not panic on items that have a label map. *)
Lemma updateAppLabel_items_returns label items :
  Forall (fun item => GetLabels item <> None) items ->
  forall w, exists err, (updateAppLabel_items label items w).1 = Ret err.
Proof.
  induction items as [|item rest IH]; intros Hl w.
  { by exists None. }
  apply Forall_cons in Hl as [Hitem Hrest].
  cbn [updateAppLabel_items]. unfold mbind at 1, M_bind at 1, bind at 1.
  destruct (GetLabels item) as [m|] eqn:Hm; [|done].
  rewrite rangeAssign_union.
  unfold ResourceUpdate, update, mbind, M_bind, bind, logf, emit, ret.
  destruct (faults _ _ _) as [e|]; cbn; [by eexists|].
  destruct (applyUpdate _ _ _) as [s'|e]; cbn; [|by eexists].
  apply IH. done.
Qed.

(** A full update of an application: it fails and changes nothing, or it
    replaces the labels of the stored object and keeps its status. *)
Lemma ResourceUpdate_app obj w :
  let r := (ResourceUpdate appGVR obj w).1 in
  let w1 := (ResourceUpdate appGVR obj w).2 in
  env w1 = env w /\
  ((exists e, r = Ret (Some e) /\ cluster w1 = cluster w) \/
   (r = Ret None /\
    applicationversions (cluster w1) = applicationversions (cluster w) /\
    exists st,
      applications (cluster w) !! metaName obj = Some st /\
      applications (cluster w1) =
        <[metaName obj := {| objLabels := metaLabels obj; objStatus := objStatus st |}]>
          (applications (cluster w)))).
Proof.
  cbv zeta. unfold ResourceUpdate, update.
  destruct (faults _ _ _) as [e|]; cbn; [split; [done|left; eauto]|].
  unfold applyUpdate, resource, set_resource. rewrite !decide_True by done.
  destruct (applications (cluster w) !! metaName obj) as [st|] eqn:Hst; cbn.
  - split; [done|]. right. split_and!; try done. by exists st.
  - split; [done|]. left. eauto.
Qed.

(** One iteration of the label loop. *)
Lemma updateAppLabel_items_cons label item rest w :
  updateAppLabel_items label (item :: rest) w =
  match rangeAssign (GetLabels item) (map_to_list label) w with
  | (Ret labels, _) =>
    match ResourceUpdate appGVR (SetLabels item labels) w with
    | (Ret None, w1) => updateAppLabel_items label rest w1
    | (Ret (Some e), w1) =>
      (Ret (Some e),
       (logf ErrorLevel "Failed to update labels for app %s: %v"
          [AStr (GetName item); AErr e] w1).2)
    | (Panic msg, w1) => (Panic msg, w1)
    | (Fatal, w1) => (Fatal, w1)
    | (OsExit code, w1) => (OsExit code, w1)
    end
  | (Panic msg, _) => (Panic msg, w)
  | (Fatal, _) => (Fatal, w)
  | (OsExit code, _) => (OsExit code, w)
  end.
Proof.
  cbn [updateAppLabel_items]. unfold mbind at 1, M_bind at 1, bind at 1.
  destruct (GetLabels item) as [m|].
  - rewrite rangeAssign_union. unfold mbind, M_bind, bind.
    destruct (ResourceUpdate _ _ _) as [[[e|]|msg| |code] w1]; done.
  - rewrite rangeAssign_None. destruct (map_to_list label); [|done].
    unfold mbind, M_bind, bind.
    destruct (ResourceUpdate _ _ _) as [[[e|]|msg| |code] w1]; done.
Qed.

(** The label loop over items that were listed from the applications
    [s0]: every application is as in [s0] or patched; what was patched
    stays patched; applications that were not listed are not touched;
    versions are not touched; and when the loop returns [nil], every item
    is patched. *)
Lemma updateAppLabel_items_store label (s0 : gmap string ObjState) items :
  (forall item, item ∈ items ->
     s0 !! metaName item =
       Some {| objLabels := metaLabels item; objStatus := status item |}) ->
  forall w,
    (forall n, applications (cluster w) !! n = s0 !! n \/
               applications (cluster w) !! n = patchState label <$> s0 !! n) ->
    let r := (updateAppLabel_items label items w).1 in
    let w' := (updateAppLabel_items label items w).2 in
    applicationversions (cluster w') = applicationversions (cluster w) /\
    (forall n, applications (cluster w') !! n = s0 !! n \/
               applications (cluster w') !! n = patchState label <$> s0 !! n) /\
    (forall n, applications (cluster w) !! n = patchState label <$> s0 !! n ->
               applications (cluster w') !! n = patchState label <$> s0 !! n) /\
    (forall n, n ∉ metaName <$> items ->
               applications (cluster w') !! n = applications (cluster w) !! n) /\
    (r = Ret None ->
     forall item, item ∈ items ->
       applications (cluster w') !! metaName item =
         patchState label <$> s0 !! metaName item).
Proof.
  induction items as [|item rest IH]; intros Hsnap w Hinv; cbv zeta.
  { cbn. split_and!; try done. intros _ item Hin. by apply elem_of_nil in Hin. }
  rewrite updateAppLabel_items_cons.
  assert (rangeAssign (GetLabels item) (map_to_list label) w =
            (Ret (patched label (GetLabels item)), w) \/
          rangeAssign (GetLabels item) (map_to_list label) w =
            (Panic "assignment to entry in nil map", w)) as [->| ->].
  { destruct (GetLabels item) as [m|].
    - left. apply rangeAssign_union.
    - rewrite rangeAssign_None. destruct (map_to_list label); eauto. }
  2: { cbn. split_and!; try done. }
  set (item' := SetLabels item (patched label (GetLabels item))).
  pose proof (ResourceUpdate_app item' w) as Hu. cbv zeta in Hu.
  destruct (ResourceUpdate appGVR item' w) as [r1 w1]. cbn [fst snd] in Hu.
  destruct Hu as [_ [(e & -> & Hc)|(-> & Hv & st & Hst & Hc)]].
  { cbn. rewrite Hc. split_and!; try done. }
  change (metaName item') with (metaName item) in Hst, Hc.
  change (metaLabels item') with (patched label (metaLabels item)) in Hc.
  assert (s0 !! metaName item =
            Some {| objLabels := metaLabels item; objStatus := status item |})
    as Hs0 by (apply Hsnap; by left).
  assert (applications (cluster w1) =
            <[metaName item := patchState label
                {| objLabels := metaLabels item; objStatus := status item |}]>
              (applications (cluster w))) as Hc'.
  { rewrite Hc. f_equal. unfold patchState. cbn. f_equal.
    destruct (Hinv (metaName item)) as [Hi|Hi]; rewrite Hi, Hs0 in Hst;
      by injection Hst as <-. }
  clear Hc Hst.
  assert (forall n, applications (cluster w1) !! n = s0 !! n \/
                    applications (cluster w1) !! n = patchState label <$> s0 !! n)
    as Hinv1.
  { intros n. rewrite Hc'. destruct (decide (metaName item = n)) as [<-|Hne].
    - right. by rewrite lookup_insert_eq, Hs0.
    - rewrite lookup_insert_ne by done. apply Hinv. }
  specialize (IH (fun it Hit => Hsnap it (list_elem_of_further _ _ _ Hit)) w1 Hinv1).
  cbv zeta in IH. destruct IH as (Hv' & Hinv' & Hkeep & Hother & Hall).
  split_and!.
  - congruence.
  - done.
  - intros n Hn. apply Hkeep. rewrite Hc'.
    destruct (decide (metaName item = n)) as [<-|Hne].
    + by rewrite lookup_insert_eq, Hs0.
    + by rewrite lookup_insert_ne.
  - intros n Hn. rewrite fmap_cons, not_elem_of_cons in Hn.
    destruct Hn as [Hne Hn]. rewrite Hother by done. rewrite Hc'.
    by rewrite lookup_insert_ne.
  - intros Hr it Hit. apply elem_of_cons in Hit as [->|Hit].
    + apply Hkeep. by rewrite Hc', lookup_insert_eq, Hs0.
    + by apply Hall.
Qed.

(** The label stage on the store: every application is as before or
    patched, the applications the selector does not select are as before,
    and when the stage returns [nil] every selected application is
    patched. *)
Lemma updateAppLabel_store opts label w :
  let r := (updateAppLabel opts label w).1 in
  let w' := (updateAppLabel opts label w).2 in
  applicationversions (cluster w') = applicationversions (cluster w) /\
  (forall n, applications (cluster w') !! n = applications (cluster w) !! n \/
             applications (cluster w') !! n =
               patchState label <$> applications (cluster w) !! n) /\
  (forall n st,
     applications (cluster w) !! n = Some st ->
     selects (LabelSelector opts) (objLabels st) = false ->
     applications (cluster w') !! n = Some st) /\
  (r = Ret None ->
   forall n st,
     applications (cluster w) !! n = Some st ->
     selects (LabelSelector opts) (objLabels st) = true ->
     applications (cluster w') !! n = Some (patchState label st)).
Proof.
  cbv zeta. unfold updateAppLabel, ResourceList, mbind, M_bind, bind.
  destruct (faults _ _ _) as [e|]; cbn [errOf fst snd].
  { cbn. split_and!; try done; by left. }
  destruct (listObjects appGVR opts (cluster w)) as [items|e] eqn:Hl;
    cbn [errOf fst snd].
  2: { cbn. split_and!; try done; by left. }
  pose proof (listObjects_app opts (cluster w) items Hl) as Hitems.
  match goal with |- context [updateAppLabel_items label items ?w1] =>
    pose proof (updateAppLabel_items_store label (applications (cluster w))
                  items (fun it Hit => proj1 (proj1 (Hitems it) Hit)) w1
                  (fun n => or_introl eq_refl)) as Hs;
    destruct (updateAppLabel_items label items w1) as [r w'] end.
  cbv zeta in Hs. cbn [fst snd] in *.
  destruct Hs as (Hv & Hinv & _ & Hother & Hall).
  split_and!; try done.
  - intros n st Hst Hsel. cbn in Hother. rewrite Hother; [done|].
    intros Hin. apply list_elem_of_fmap in Hin as (it & -> & Hit).
    apply Hitems in Hit as [Hst' Hsel']. rewrite Hst' in Hst.
    injection Hst as <-. cbn in Hsel. congruence.
  - intros Hr n st Hst Hsel.
    specialize (Hall Hr {| metaName := n; metaLabels := objLabels st;
                           status := objStatus st |}).
    cbn in Hall. rewrite Hall, Hst; [done|].
    apply Hitems. cbn. split; [|done]. rewrite Hst. by destruct st.
Qed.

(** The records that the selector of [run] lists carry the mark, and the
    label stage of [run] returns. *)
Lemma listed_carry_mark s items item :
  listObjects appGVR listOptions s = Ok items -> item ∈ items ->
  exists m, GetLabels item = Some m /\ m !! categoryKey = Some mark.
Proof.
  intros Hl Hin. apply (listObjects_app _ _ _ Hl) in Hin as [_ Hsel].
  by apply selects_listOptions.
Qed.

Lemma updateAppLabel_returns label w :
  exists err, (updateAppLabel listOptions label w).1 = Ret err.
Proof.
  unfold updateAppLabel, ResourceList, mbind, M_bind, bind.
  destruct (faults _ _ _) as [e|]; cbn [errOf fst snd]; [by eexists|].
  destruct (listObjects appGVR listOptions (cluster w)) as [items|e] eqn:Hl;
    cbn [errOf fst snd]; [|by eexists].
  apply updateAppLabel_items_returns. apply Forall_forall. intros item Hin.
  destruct (listed_carry_mark _ _ _ Hl Hin) as (m & -> & _). done.
Qed.

(** C8.  The label patch is additive.  On a record that carries the
    labels [m] the range over the patch returns the union of the patch and
    [m]: every pair of the patch is in it, and every key that the patch
    does not have keeps the value (or the absence) it has in [m]; the
    patch a:1 on the labels b:2 gives a:1, b:2.  When the stage returns
    [nil], every selected application has the patched labels and its
    status as before, and the others are as before; however the stage
    ends, every application has the labels it had or these labels patched;
    and with the selector of [run] the stage always returns. *)
Theorem updateAppLabel_additive :
  (forall (label m : gmap string string) w,
     rangeAssign (Some m) (map_to_list label) w = (Ret (Some (label ∪ m)), w) /\
     (forall k v, label !! k = Some v -> (label ∪ m) !! k = Some v) /\
     (forall k, label !! k = None -> (label ∪ m) !! k = m !! k)) /\
  (forall w,
     rangeAssign (Some {[ "b" := "2" ]}) (map_to_list {[ "a" := "1" ]}) w =
     (Ret (Some {[ "a" := "1"; "b" := "2" ]}), w)) /\
  (forall opts label w,
     (updateAppLabel opts label w).1 = Ret None ->
     forall n st,
       applications (cluster w) !! n = Some st ->
       applications (cluster (updateAppLabel opts label w).2) !! n =
       Some (if selects (LabelSelector opts) (objLabels st)
             then {| objLabels := patched label (objLabels st);
                     objStatus := objStatus st |}
             else st)) /\
  (forall opts label w n st,
     applications (cluster w) !! n = Some st ->
     exists st',
       applications (cluster (updateAppLabel opts label w).2) !! n = Some st' /\
       objStatus st' = objStatus st /\
       (objLabels st' = objLabels st \/
        objLabels st' = patched label (objLabels st))) /\
  (forall label w, exists err, (updateAppLabel listOptions label w).1 = Ret err).
Proof.
  split_and!.
  - intros label m w. split_and!.
    + apply rangeAssign_union.
    + intros k v Hk. by apply lookup_union_Some_l.
    + intros k Hk. by apply lookup_union_r.
  - intros w. rewrite rangeAssign_union. by vm_compute.
  - intros opts label w Hr n st Hst.
    destruct (updateAppLabel_store opts label w) as (_ & _ & Hno & Hyes).
    destruct (selects (LabelSelector opts) (objLabels st)) eqn:Hsel.
    + by apply Hyes.
    + by apply Hno.
  - intros opts label w n st Hst.
    destruct (updateAppLabel_store opts label w) as (_ & Hinv & _).
    destruct (Hinv n) as [Hn|Hn]; rewrite Hn, Hst.
    + exists st. by split_and!; [| |left].
    + exists (patchState label st). by split_and!; [| |right].
  - apply updateAppLabel_returns.
Qed.

Lemma updateAppLabel_additive_witness :
  let s := {| applications :=
                {[ "demo" := {| objLabels := Some {[ "b" := "2" ]};
                                objStatus := ∅ |} ]};
              applicationversions := ∅ |} in
  let w := sampleWorld (sampleEnv allOK (Loaded []) noFaults) 1 s in
  let opts := {| LabelSelector := "b=2" |} in
  (updateAppLabel opts {[ "a" := "1" ]} w).1 = Ret None /\
  applications (cluster (updateAppLabel opts {[ "a" := "1" ]} w).2) !! "demo" =
  Some {| objLabels := Some {[ "a" := "1"; "b" := "2" ]}; objStatus := ∅ |}.
Proof.
  cbv zeta.
  set (s := {| applications :=
                 {[ "demo" := {| objLabels := Some {[ "b" := "2" ]};
                                 objStatus := ∅ |} ]};
               applicationversions := ∅ |}).
  set (w := sampleWorld (sampleEnv allOK (Loaded []) noFaults) 1 s).
  assert ((updateAppLabel {| LabelSelector := "b=2" |} {[ "a" := "1" ]} w).1 =
          Ret None) as Hr by (vm_compute; reflexivity).
  split; [exact Hr|].
  rewrite (proj1 (proj2 (proj2 updateAppLabel_additive))
             {| LabelSelector := "b=2" |} {[ "a" := "1" ]} w Hr "demo"
             {| objLabels := Some {[ "b" := "2" ]}; objStatus := ∅ |})
    by (vm_compute; reflexivity).
  vm_compute. reflexivity.
Defined.

(** C10.  The label loop writes into the map that [GetLabels] returned
    without creating it: on an item without labels a patch that is not
    empty panics, before any update call.  On items that carry at least one
    label the loop does not panic.  The records the selector of [run] lists
    carry the category label, so the label stage of [run] never panics. *)
Theorem updateAppLabel_nil_map :
  (forall label item rest w,
     GetLabels item = None -> label <> ∅ ->
     updateAppLabel_items label (item :: rest) w =
     (Panic "assignment to entry in nil map", w)) /\
  (forall label items w,
     Forall (fun item => exists m k v, GetLabels item = Some m /\ m !! k = Some v)
       items ->
     exists err, (updateAppLabel_items label items w).1 = Ret err) /\
  (forall s items item,
     listObjects appGVR listOptions s = Ok items -> item ∈ items ->
     exists m, GetLabels item = Some m /\ m !! categoryKey = Some mark) /\
  (forall label w, exists err, (updateAppLabel listOptions label w).1 = Ret err).
Proof.
  split_and!.
  - intros label item rest w Hnil Hne.
    rewrite updateAppLabel_items_cons, Hnil, rangeAssign_None.
    destruct (map_to_list label) eqn:Hl; [|done].
    by apply map_to_list_empty_iff in Hl.
  - intros label items w Hl. apply updateAppLabel_items_returns.
    eapply Forall_impl; [exact Hl|]. intros item (m & _ & _ & -> & _). done.
  - apply listed_carry_mark.
  - apply updateAppLabel_returns.
Qed.

Lemma updateAppLabel_nil_map_witness :
  let bare := {| metaName := "bare"; metaLabels := None; status := ∅ |} in
  let tagged := {| metaName := "tagged";
                   metaLabels := Some {[ categoryKey := mark ]}; status := ∅ |} in
  let w := sampleWorld (sampleEnv allOK (Loaded []) noFaults) 1 emptyStore in
  updateAppLabel_items store [bare; tagged] w =
    (Panic "assignment to entry in nil map", w) /\
  exists err, (updateAppLabel_items store [tagged] w).1 = Ret err.
Proof.
  cbv zeta. split.
  - apply (proj1 updateAppLabel_nil_map); [reflexivity|].
    intros H. apply (f_equal (fun m => m !! "application.kubesphere.io/app-store")) in H.
    vm_compute in H. discriminate H.
  - apply (proj1 (proj2 updateAppLabel_nil_map)).
    repeat constructor. exists {[ categoryKey := mark ]}, categoryKey, mark.
    split; reflexivity.
Defined.

(** The label stage in the terms of [stageRun]: every update it sends is
    for a selected application of the store, with the patched labels. *)
Lemma updateAppLabel_run opts label w :
  stageRun
    (labelEvent (fun obj =>
       exists st,
         applications (cluster w) !! metaName obj = Some st /\
         selects (LabelSelector opts) (objLabels st) = true /\
         metaLabels obj = patched label (objLabels st)))
    true w (updateAppLabel opts label w).1 (updateAppLabel opts label w).2.
Proof.
  apply (stageRun_list _ true appGVR opts "Failed to list apps: %v"
           (fun e => [AErr e]) (updateAppLabel_items label) w); try done.
  intros items w1 _ _ _ Hl. apply updateAppLabel_items_run.
  intros item Hin. apply (listObjects_app _ _ _ Hl) in Hin as [Hst Hsel].
  eexists. split; [exact Hst|]. done.
Qed.

(** C6.  Each stage is fail-fast.  Its events are error logs and API
    calls; either no call fails and the stage returns [nil] (or, in the
    label stage, panics), or the first call that fails is the last call of
    the stage, followed only by the log line about it, and the stage
    returns the error of that call.  The store at the end is the store at
    the start with the accepted updates applied in order: nothing that was
    updated before the failure is taken back. *)
Theorem stages_fail_fast opts label w :
  stageRun (statusEvent appGVR) false w
    (updateAppStatus opts w).1 (updateAppStatus opts w).2 /\
  stageRun (labelEvent (fun _ => True)) true w
    (updateAppLabel opts label w).1 (updateAppLabel opts label w).2 /\
  stageRun (statusEvent versionGVR) false w
    (updateVersionStatus opts w).1 (updateVersionStatus opts w).2.
Proof.
  split_and!.
  - apply updateAppStatus_run.
  - destruct (updateAppLabel_run opts label w) as (He & evs & Ht & HQ & Hc & Hf).
    split; [done|]. exists evs. split_and!; try done.
    eapply Forall_impl; [exact HQ|].
    intros [lvl fmt args|e|req res|ms|[gvr o|gvr obj|gvr obj] err]; cbn; try done.
    by intros [-> _].
  - apply updateVersionStatus_run.
Qed.

(** Three applications, the second status update refused: the first
    application listed stays active, the second call is the last one, the
    third application is never sent. *)
Example updateAppStatus_partial :
  let w := sampleWorld (sampleEnv allOK (Loaded []) (refuseAfter 1)) 1 threeApps in
  let r := updateAppStatus listOptions w in
  r.1 = Ret (Some "conflict") /\
  omap (fun ev => match ev with
                  | EvApi (CallUpdateStatus _ obj) err => Some (metaName obj, err)
                  | _ => None
                  end) (since w r.2) =
    [("c", None); ("a", Some "conflict")] /\
  (fun n => (applications (cluster r.2) !! n) ≫= (fun st => objStatus st !! "state"))
    <$> ["a"; "b"; "c"] = [None; None; Some "active"].
Proof. vm_compute. split_and!; reflexivity. Qed.

(** Status updates, list calls and logs leave the labels of every
    application as they are. *)
Lemma replay_status_labels e gvr evs : forall hist s,
  Forall (statusEvent gvr) evs ->
  forall n, objLabels <$> applications (replay e hist evs s) !! n =
            objLabels <$> applications s !! n.
Proof.
  induction evs as [|ev evs IH]; intros hist s Hq n; [done|].
  apply Forall_cons in Hq as [Hev Hq]. cbn [replay]. rewrite IH by done.
  destruct ev as [lvl fmt args|err|req res|ms|[g o|g obj|g obj] [err|]];
    try done.
  cbn. unfold applyUpdateStatus, resource, set_resource.
  destruct (decide (g = appGVR)) as [->|Hg].
  - destruct (applications s !! metaName obj) as [st|] eqn:Hst; [|done].
    cbn. destruct (decide (metaName obj = n)) as [<-|Hne].
    + by rewrite lookup_insert_eq, Hst.
    + by rewrite lookup_insert_ne.
  - destruct (decide (g = versionGVR)) as [->|Hg']; [|done].
    by destruct (applicationversions s !! metaName obj).
Qed.

Lemma stageRun_status_category gvr w r w' :
  stageRun (statusEvent gvr) false w r w' ->
  forall n, categoryOf (cluster w') n = categoryOf (cluster w) n.
Proof.
  intros (_ & evs & _ & HQ & -> & _) n. unfold categoryOf.
  pose proof (replay_status_labels (env w) gvr evs (trace w) (cluster w) HQ n) as H.
  destruct (applications (replay _ _ _ _) !! n) as [st'|],
    (applications (cluster w) !! n) as [st|]; cbn in *; congruence.
Qed.

(** A label stage whose patch does not have the category key leaves the
    category of every application as it is. *)
Lemma updateAppLabel_category opts label w :
  label !! categoryKey = None ->
  forall n, categoryOf (cluster (updateAppLabel opts label w).2) n =
            categoryOf (cluster w) n.
Proof.
  intros Hk n. destruct (updateAppLabel_store opts label w) as (_ & Hinv & _).
  unfold categoryOf. destruct (Hinv n) as [->| ->]; [done|].
  destruct (applications (cluster w) !! n) as [st|]; [|done]. cbn.
  destruct (objLabels st) as [m|]; [|done]. cbn. by apply lookup_union_r.
Qed.

Lemma status_stage_facts gvr w r w1 :
  stageRun (statusEvent gvr) false w r w1 -> stageFacts (statusEvent gvr) w r w1.
Proof.
  intros (_ & evs & Ht & HQ & _ & Hf). split; [|by exists evs].
  destruct r as [err|msg| |code]; cbn in Hf; try done; [by exists err|].
  by destruct Hf.
Qed.

Lemma label_stage_facts label c w :
  (forall m : gmap string string,
     m !! categoryKey = Some mark -> (label ∪ m) !! categoryKey = Some c) ->
  stageFacts (labelEvent (fun obj => sentCategory obj = Some c)) w
    (updateAppLabel listOptions label w).1 (updateAppLabel listOptions label w).2.
Proof.
  intros Hc. split; [apply updateAppLabel_returns|].
  destruct (updateAppLabel_run listOptions label w) as (_ & evs & Ht & HQ & _).
  exists evs. split; [done|]. eapply Forall_impl; [exact HQ|].
  intros [lvl fmt args|err|req res|ms|[g o|g obj|g obj] err]; cbn; try done.
  intros [-> (st & _ & Hsel & Hl)]. split; [done|].
  apply selects_listOptions in Hsel as (m & Hm & Hmark).
  unfold sentCategory. rewrite Hl, Hm. cbn. by apply Hc.
Qed.

Lemma store_keeps_mark (m : gmap string string) :
  m !! categoryKey = Some mark -> (store ∪ m) !! categoryKey = Some mark.
Proof. intros H. by rewrite lookup_union_r. Qed.

Lemma categoryName_replaces_mark (m : gmap string string) :
  m !! categoryKey = Some mark ->
  (categoryName ∪ m) !! categoryKey = Some "kubesphere-app-uncategorized".
Proof. intros _. by apply lookup_union_Some_l. Qed.

(** ** The order of the stages *)

(** The events since [w] are [evs], by the trace equations at hand. *)
Ltac since_is evs :=
  rewrite !(since_app _ _ evs)
    by (cbn;
        repeat match goal with H : trace _ = _ |- _ => rewrite H end;
        by rewrite <- ?app_assoc).

(** Name the world in which the next stage starts, with its trace and the
    categories of its store. *)
Ltac next_world w1 w1' T K :=
  match goal with
  | |- context [set_trace (trace w1 ++ [?ev]) w1] =>
    set (w1' := set_trace (trace w1 ++ [ev]) w1) in *;
    assert (trace w1' = trace w1 ++ [ev]) as T by done;
    assert (forall n, categoryOf (cluster w1') n = categoryOf (cluster w1) n)
      as K by done;
    clearbody w1'
  end.

(** C7.  The stages of [run] come in the order app status, store label,
    version status, category label, each followed by the line that
    reports it, and a stage that fails ends the run.  Only the updates of
    the fourth stage replace the category label: as long as the third
    stage has not been reported complete, in particular when it fails, the
    category label of every application is the one it had when the first
    stage started. *)
Theorem reconcile_in_order w :
  let r := (reconcile w).1 in
  let w' := (reconcile w).2 in
  Pipeline r (since w w') /\
  (EvLog InfoLevel "[3/4] updateVersionStatus completed successfully" []
     ∉ since w w' ->
   forall n, categoryOf (cluster w') n = categoryOf (cluster w) n).
Proof.
  cbv zeta. unfold reconcile, mbind, M_bind, bind.
  (* stage 1 *)
  pose proof (updateAppStatus_run listOptions w) as H1.
  pose proof (stageRun_status_category _ _ _ _ H1) as C1.
  apply status_stage_facts in H1 as [[err1 R1] (e1 & T1 & Q1)].
  destruct (updateAppStatus listOptions w) as [r1 w1]. cbn [fst snd] in *.
  subst r1. destruct err1 as [err|]; cbn -[store categoryName].
  { since_is (e1 ++ [EvLog FatalLevel "[1/4] Failed to update app status: %v"
                       [AErr err]]).
    split; [by constructor|]. intros _. exact C1. }
  (* stage 2 *)
  next_world w1 w1' T1' K1.
  pose proof (label_stage_facts store mark w1' store_keeps_mark)
    as [[err2 R2] (e2 & T2 & Q2)].
  pose proof (updateAppLabel_category listOptions store w1' eq_refl) as C2.
  destruct (updateAppLabel listOptions store w1') as [r2 w2]. cbn [fst snd] in *.
  subst r2. destruct err2 as [err|]; cbn -[store categoryName].
  { since_is (e1 ++ EvLog InfoLevel "[1/4] updateAppStatus completed successfully" [] ::
              e2 ++ [EvLog FatalLevel "[2/4] Failed to update app label: %v"
                       [AErr err]]).
    split; [by constructor|]. intros _ n. by rewrite C2, K1. }
  (* stage 3 *)
  next_world w2 w2' T2' K2.
  pose proof (updateVersionStatus_run listOptions w2') as H3.
  pose proof (stageRun_status_category _ _ _ _ H3) as C3.
  apply status_stage_facts in H3 as [[err3 R3] (e3 & T3 & Q3)].
  destruct (updateVersionStatus listOptions w2') as [r3 w3]. cbn [fst snd] in *.
  subst r3. destruct err3 as [err|]; cbn -[store categoryName].
  { since_is (e1 ++ EvLog InfoLevel "[1/4] updateAppStatus completed successfully" [] ::
              e2 ++ EvLog InfoLevel "[2/4] updateAppLabel store completed successfully" [] ::
              e3 ++ [EvLog FatalLevel "[3/4] Failed to update version status: %v"
                       [AErr err]]).
    split; [by constructor|]. intros _ n. by rewrite C3, K2, C2, K1. }
  (* stage 4 *)
  next_world w3 w3' T3' K3.
  pose proof (label_stage_facts categoryName "kubesphere-app-uncategorized" w3'
                categoryName_replaces_mark) as [[err4 R4] (e4 & T4 & Q4)].
  destruct (updateAppLabel listOptions categoryName w3') as [r4 w4].
  cbn [fst snd] in *.
  subst r4. destruct err4 as [err|]; cbn -[store categoryName].
  - since_is (e1 ++ EvLog InfoLevel "[1/4] updateAppStatus completed successfully" [] ::
              e2 ++ EvLog InfoLevel "[2/4] updateAppLabel store completed successfully" [] ::
              e3 ++ EvLog InfoLevel "[3/4] updateVersionStatus completed successfully" [] ::
              e4 ++ [EvLog FatalLevel "[4/4] Failed to update app category label: %v"
                       [AErr err]]).
    split; [by constructor|]. intros Hno. destruct Hno.
    apply elem_of_app; right; right. apply elem_of_app; right; right.
    apply elem_of_app; right. by left.
  - since_is (e1 ++ EvLog InfoLevel "[1/4] updateAppStatus completed successfully" [] ::
              e2 ++ EvLog InfoLevel "[2/4] updateAppLabel store completed successfully" [] ::
              e3 ++ EvLog InfoLevel "[3/4] updateVersionStatus completed successfully" [] ::
              e4 ++ [EvLog InfoLevel
                       "[4/4] updateAppLabel categoryName completed successfully" []]).
    split; [by constructor|]. intros Hno. destruct Hno.
    apply elem_of_app; right; right. apply elem_of_app; right; right.
    apply elem_of_app; right. by left.
Qed.

Lemma reconcile_in_order_witness :
  let w := sampleWorld (sampleEnv allOK (Loaded []) (refuseAfter 6)) 1
             appsWithVersion in
  (reconcile w).1 = Fatal /\
  last (since w (reconcile w).2) =
    Some (EvLog FatalLevel "[3/4] Failed to update version status: %v"
            [AErr "conflict"]) /\
  (EvLog InfoLevel "[3/4] updateVersionStatus completed successfully" []
     ∉ since w (reconcile w).2) /\
  (forall n, categoryOf (cluster (reconcile w).2) n = categoryOf (cluster w) n).
Proof.
  cbv zeta.
  set (w := sampleWorld (sampleEnv allOK (Loaded []) (refuseAfter 6)) 1
              appsWithVersion).
  assert (EvLog InfoLevel "[3/4] updateVersionStatus completed successfully" []
            ∉ since w (reconcile w).2) as Hno.
  { vm_compute. intros H.
    repeat (apply elem_of_cons in H as [H|H]; [discriminate H|]).
    by apply elem_of_nil in H. }
  split_and!.
  - vm_compute. reflexivity.
  - vm_compute. reflexivity.
  - exact Hno.
  - exact (proj2 (reconcile_in_order w) Hno).
Defined.

(** ** The headers of the requests *)

Section Carries.
(** The headers of the client that [run] is given. *)
Variable hdr : gmap string string.

Local Abbreviation carries := (carries hdr).
Local Abbreviation keeps := (keeps hdr).

Lemma keeps_ret {A} (a : A) : keeps (ret a).
Proof. intros w. exists []. by rewrite app_nil_r. Qed.

Lemma keeps_bind {A B} (m : M A) (k : A -> M B) :
  keeps m -> (forall a, keeps (k a)) -> keeps (m ≫= k).
Proof.
  intros Hm Hk w. unfold mbind, M_bind, bind.
  destruct (Hm w) as (evs1 & Ht1 & Hc1).
  destruct (m w) as [[a|msg| |code] w1]; cbn [snd] in *;
    try (by exists evs1).
  destruct (Hk a w1) as (evs2 & Ht2 & Hc2).
  exists (evs1 ++ evs2). split; [|by apply Forall_app].
  rewrite Ht2, Ht1. by rewrite app_assoc.
Qed.

Lemma keeps_same {A} (m : M A) :
  (forall w, trace (m w).2 = trace w) -> keeps m.
Proof. intros H w. exists []. by rewrite app_nil_r. Qed.

Lemma keeps_emit ev : carries ev -> keeps (emit ev).
Proof. intros Hc w. exists [ev]. split; [done|]. by constructor. Qed.

Lemma keeps_logf lvl fmt args : keeps (logf lvl fmt args).
Proof. by apply keeps_emit. Qed.

Lemma keeps_fatalf {A} fmt args : keeps (@fatalf A fmt args).
Proof. intros w. eexists. split; [done|]. by repeat constructor. Qed.

Lemma keeps_fatalIf err fmt : keeps (fatalIf err fmt).
Proof. destruct err; [apply keeps_fatalf|apply keeps_ret]. Qed.

Lemma keeps_execute req : Header req = hdr -> keeps (execute req).
Proof. intros Hh w. eexists. split; [done|]. by repeat constructor. Qed.

Lemma keeps_stage Q mayPanic (m : M (option error)) w :
  (forall ev, Q ev -> carries ev) ->
  stageRun Q mayPanic w (m w).1 (m w).2 ->
  exists evs, trace (m w).2 = trace w ++ evs /\ Forall carries evs.
Proof.
  intros HQ (_ & evs & Ht & Hq & _).
  exists evs. split; [done|]. eapply Forall_impl; eauto.
Qed.

Lemma keeps_status gvr ev : statusEvent gvr ev -> carries ev.
Proof. by destruct ev. Qed.

Lemma keeps_label P ev : labelEvent P ev -> carries ev.
Proof. by destruct ev. Qed.

Variable c : Client.
Hypothesis client_hdr : clientHeader c = hdr.

Lemma keeps_uploadEntries appID entries : forall success,
  keeps (uploadEntries c appID success entries).
Proof.
  induction entries as [|entry rest IH]; intros success; [apply keeps_ret|].
  cbn [uploadEntries].
  destruct (Deprecated entry); [apply keeps_logf|].
  destruct (URLs entry) as [|url0 urls]; [by apply keeps_same|].
  apply keeps_bind; [by apply keeps_execute|]. intros [err|resp].
  { apply keeps_bind; [apply keeps_logf|]. intros _. apply IH. }
  destruct (IsError resp).
  { apply keeps_bind; [apply keeps_logf|]. intros _. apply IH. }
  apply keeps_bind; [by apply keeps_same|]. intros w.
  apply keeps_bind; [by apply keeps_execute|]. intros [err|resp'].
  { apply keeps_bind; [apply keeps_logf|]. intros _. apply IH. }
  destruct (IsError resp').
  { apply keeps_bind; [apply keeps_logf|]. intros _. apply IH. }
  apply keeps_bind; [apply keeps_logf|]. intros _.
  apply keeps_bind; [by apply keeps_same|]. intros w'.
  destruct (limit w' <=? success + 1); [apply keeps_ret|].
  apply keeps_bind; [by apply keeps_emit|]. intros _. apply IH.
Qed.

Lemma keeps_uploadPackages index : keeps (uploadPackages c index).
Proof.
  induction index as [|[name entries] more IH]; [apply keeps_ret|].
  cbn [uploadPackages]. apply keeps_bind; [apply keeps_uploadEntries|].
  intros _. apply IH.
Qed.

Lemma keeps_uploadChart : keeps (uploadChart c).
Proof.
  unfold uploadChart. apply keeps_bind; [by apply keeps_same|]. intros w.
  destruct (helmRepo (env w) (repoURL w)); try apply keeps_fatalf.
  apply keeps_bind; [apply keeps_uploadPackages|]. intros _. apply keeps_ret.
Qed.

Lemma keeps_reconcile : keeps reconcile.
Proof.
  unfold reconcile.
  repeat match goal with
         | |- keeps (logf _ _ _) => apply keeps_logf
         | |- keeps (fatalIf _ _) => apply keeps_fatalIf
         | |- keeps (mbind _ _) => apply keeps_bind; [|intros ?]
         end.
  - intros w. eapply keeps_stage;
      [apply (keeps_status appGVR)|apply updateAppStatus_run].
  - intros w. eapply keeps_stage;
      [apply keeps_label|apply updateAppLabel_run].
  - intros w. eapply keeps_stage;
      [apply (keeps_status versionGVR)|apply updateVersionStatus_run].
  - intros w. eapply keeps_stage;
      [apply keeps_label|apply updateAppLabel_run].
Qed.

Lemma keeps_run : keeps (run c).
Proof.
  unfold run, initDynamicClient.
  apply keeps_bind; [by apply keeps_same|]. intros w.
  apply keeps_bind; [apply keeps_logf|]. intros _.
  apply keeps_bind.
  { apply keeps_bind; [by apply keeps_same|]. intros w'.
    destruct (kubeConfig (env w')).
    - by apply keeps_same.
    - apply keeps_bind; [apply keeps_logf|]. intros _. apply keeps_ret.
    - apply keeps_bind; [apply keeps_logf|]. intros _. apply keeps_ret. }
  intros err. apply keeps_bind; [apply keeps_fatalIf|]. intros _.
  apply keeps_bind; [apply keeps_uploadChart|]. intros err'.
  apply keeps_bind; [apply keeps_fatalIf|]. intros _.
  apply keeps_reconcile.
Qed.

Lemma keeps_Execute args : keeps (Execute args c).
Proof.
  unfold Execute, rootCmd_Run.
  apply keeps_bind; [by apply keeps_same|]. intros _.
  destruct (flagServer args), (flagRepo args); try apply keeps_ret.
  apply keeps_bind; [|intros _; apply keeps_ret].
  apply keeps_bind; [by apply keeps_same|]. intros w.
  apply keeps_bind; [|intros _; apply keeps_run].
  destruct (String.eqb (token w) ""); [|apply keeps_ret].
  apply keeps_bind; [apply keeps_logf|]. intros _.
  destruct (readFile (env w) tokenPath); [by apply keeps_same|].
  apply keeps_fatalf.
Qed.
End Carries.

(** C2 (the code departs from the specification).  Every request does carry an
    Authorization header, but its value is "Bearer " followed by nothing:
    [main] builds the client, and the header with it, before [Execute]
    parses the flags, when [token] is still the empty string; neither the
    value of [--token] nor the token read from the file reaches the
    header.  With [--token abc] the GET and the POST of the run carry
    "Bearer ", and so they do when the token comes from the file. *)
Theorem main_authorization_header :
  (forall e s args,
     Forall (fun ev => match ev with
                       | EvHTTP req _ => Header req !! "Authorization" = Some "Bearer "
                       | _ => True
                       end)
       (trace (main args (start e s)).2)) /\
  (let args := {| flagServer := Some "http://ks"; flagRepo := Some "http://charts";
                  flagToken := Some "abc"; flagLimit := None |} in
   let w' := (main args (start (sampleEnv allOK oneChart noFaults) emptyStore)).2 in
   token w' = "abc" /\
   authorizations (trace w') = [Some "Bearer "; Some "Bearer "]) /\
  (let args := {| flagServer := Some "http://ks"; flagRepo := Some "http://charts";
                  flagToken := None; flagLimit := None |} in
   let w' := (main args (start (sampleEnv allOK oneChart noFaults) emptyStore)).2 in
   token w' = "file-token" /\
   authorizations (trace w') = [Some "Bearer "; Some "Bearer "]).
Proof.
  split_and!.
  - intros e s args.
    set (c := {| clientHeader :=
                   <["Authorization" := "Bearer "]>
                     (<["Content-Type" := "application/json"]> ∅);
                 clientTimeout := 5000 |}).
    assert (keeps (clientHeader c)
              (err ← Execute args c;
               match err with
               | Some e' => emit (EvPrintln e');; osExit 1
               | None => ret tt
               end)) as Hk.
    { apply keeps_bind; [by apply keeps_Execute|].
      intros [err|]; [|apply keeps_ret].
      apply keeps_bind; [by apply keeps_emit|]. intros _. by apply keeps_same. }
    destruct (Hk (start e s)) as (evs & Ht & Hc).
    change (trace (main args (start e s)).2 = [] ++ evs) in Ht.
    rewrite Ht. cbn [app].
    eapply Forall_impl; [exact Hc|].
    intros [lvl fmt args'|err|req res|ms|call err]; cbn; try done.
    intros ->. done.
  - vm_compute. split; reflexivity.
  - vm_compute. split; reflexivity.
Qed.


(** * Further properties *)

(** ** What the functions leave alone *)

Section Respects.
Variable R : World -> World -> Prop.
Hypothesis R_refl : forall w, R w w.
Hypothesis R_trans : forall w1 w2 w3, R w1 w2 -> R w2 w3 -> R w1 w3.

(** The events that [R] admits, and any change of the store. *)
Variable ok : Event -> Prop.
Hypothesis R_emit : forall w ev, ok ev -> R w (set_trace (trace w ++ [ev]) w).
Hypothesis R_store : forall w s, R w (set_cluster s w).

Local Abbreviation respects := (respects R).

Lemma respects_ret {A} (a : A) : respects (ret a).
Proof. intros w. apply R_refl. Qed.

Lemma respects_bind {A B} (m : M A) (k : A -> M B) :
  respects m -> (forall a, respects (k a)) -> respects (m ≫= k).
Proof.
  intros Hm Hk w. unfold mbind, M_bind, bind. specialize (Hm w).
  destruct (m w) as [[a|msg| |code] w1]; cbn [snd] in *; try done.
  eapply R_trans; [exact Hm|apply Hk].
Qed.

Lemma respects_same {A} (m : M A) : (forall w, (m w).2 = w) -> respects m.
Proof. intros H w. rewrite H. apply R_refl. Qed.

Lemma respects_emit ev : ok ev -> respects (emit ev).
Proof. intros Hok w. by apply R_emit. Qed.

Lemma respects_fatalf {A} fmt args :
  ok (EvLog FatalLevel fmt args) -> respects (@fatalf A fmt args).
Proof. intros Hok w. by apply R_emit. Qed.

Lemma respects_execute req :
  (forall res, ok (EvHTTP req res)) -> respects (execute req).
Proof.
  intros Hok w. unfold execute. cbn [snd].
  eapply R_trans; [apply R_store|]. by apply (R_emit (set_cluster _ w)).
Qed.

Lemma respects_ResourceList gvr opts :
  (forall err, ok (EvApi (CallList gvr opts) err)) ->
  respects (ResourceList gvr opts).
Proof. intros Hok w. by apply R_emit. Qed.

Lemma respects_update call eff :
  (forall err, ok (EvApi call err)) -> respects (update call eff).
Proof.
  intros Hok w. unfold update. cbn [snd].
  destruct (faults _ _ _); [by apply R_emit|].
  destruct (eff (cluster w)) as [s'|e]; [|by apply R_emit].
  eapply R_trans; [apply R_store|]. by apply (R_emit (set_cluster _ w)).
Qed.

Hypothesis ok_log : forall lvl fmt args, ok (EvLog lvl fmt args).

Lemma respects_logf lvl fmt args : respects (logf lvl fmt args).
Proof. by apply respects_emit. Qed.

Lemma respects_fatalIf err fmt : respects (fatalIf err fmt).
Proof. destruct err; [by apply respects_fatalf|apply respects_ret]. Qed.

(** The upload phase. *)
Hypothesis ok_sleep : forall ms, ok (EvSleep ms).
Variable c : Client.
Hypothesis ok_http : forall method url body res,
  ok (EvHTTP {| Method := method; URL := url; Header := clientHeader c;
                Body := body |} res).

Lemma respects_uploadEntries appID entries : forall success,
  respects (uploadEntries c appID success entries).
Proof.
  induction entries as [|entry rest IH]; intros success; [apply respects_ret|].
  cbn [uploadEntries].
  destruct (Deprecated entry); [apply respects_logf|].
  destruct (URLs entry) as [|url0 urls]; [by apply respects_same|].
  apply respects_bind; [by apply respects_execute|]. intros [err|resp].
  { apply respects_bind; [apply respects_logf|]. intros _. apply IH. }
  destruct (IsError resp).
  { apply respects_bind; [apply respects_logf|]. intros _. apply IH. }
  apply respects_bind; [by apply respects_same|]. intros w.
  apply respects_bind; [by apply respects_execute|]. intros [err|resp'].
  { apply respects_bind; [apply respects_logf|]. intros _. apply IH. }
  destruct (IsError resp').
  { apply respects_bind; [apply respects_logf|]. intros _. apply IH. }
  apply respects_bind; [apply respects_logf|]. intros _.
  apply respects_bind; [by apply respects_same|]. intros w'.
  destruct (limit w' <=? success + 1); [apply respects_ret|].
  apply respects_bind; [by apply respects_emit|]. intros _. apply IH.
Qed.

Lemma respects_uploadPackages index : respects (uploadPackages c index).
Proof.
  induction index as [|[name entries] more IH]; [apply respects_ret|].
  cbn [uploadPackages]. apply respects_bind; [apply respects_uploadEntries|].
  intros _. apply IH.
Qed.

Lemma respects_uploadChart : respects (uploadChart c).
Proof.
  unfold uploadChart. apply respects_bind; [by apply respects_same|]. intros w.
  destruct (helmRepo (env w) (repoURL w)); try by apply respects_fatalf.
  apply respects_bind; [apply respects_uploadPackages|]. intros _.
  apply respects_ret.
Qed.

Lemma respects_initDynamicClient : respects initDynamicClient.
Proof.
  unfold initDynamicClient.
  apply respects_bind; [by apply respects_same|]. intros w.
  destruct (kubeConfig (env w)).
  - by apply respects_same.
  - apply respects_bind; [apply respects_logf|]. intros _. apply respects_ret.
  - apply respects_bind; [apply respects_logf|]. intros _. apply respects_ret.
Qed.

(** The reconciliation. *)
Hypothesis ok_api : forall call err, ok (EvApi call err).

Lemma respects_checked_update call eff fmt args next :
  respects next ->
  respects (err ← update call eff;
            match err with
            | Some e => logf ErrorLevel fmt (args e);; ret (Some e)
            | None => next
            end).
Proof.
  intros Hnext. apply respects_bind; [by apply respects_update|].
  intros [e|]; [|done].
  apply respects_bind; [apply respects_logf|]. intros _. apply respects_ret.
Qed.

Lemma respects_checked_list gvr opts fmt args next :
  (forall items, respects (next items)) ->
  respects (r ← ResourceList gvr opts;
            match r with
            | Err e => logf ErrorLevel fmt (args e);; ret (Some e)
            | Ok items => next items
            end).
Proof.
  intros Hnext. apply respects_bind; [by apply respects_ResourceList|].
  intros [items|e]; [done|].
  apply respects_bind; [apply respects_logf|]. intros _. apply respects_ret.
Qed.

Lemma respects_updateAppStatus opts : respects (updateAppStatus opts).
Proof.
  apply (respects_checked_list appGVR opts _ (fun e => [AErr e])).
  intros items. induction items as [|item rest IH]; [apply respects_ret|].
  cbn [updateAppStatus_items].
  apply respects_bind; [by apply respects_same|]. intros t.
  by apply (respects_checked_update _ _ _ (fun e => [_; AErr e])).
Qed.

Lemma respects_rangeAssign pairs : forall labels,
  respects (rangeAssign labels pairs).
Proof.
  induction pairs as [|[k v] more IH]; intros labels; [apply respects_ret|].
  cbn [rangeAssign]. apply respects_bind; [|intros ?; apply IH].
  destruct labels; by apply respects_same.
Qed.

Lemma respects_updateAppLabel opts label : respects (updateAppLabel opts label).
Proof.
  apply (respects_checked_list appGVR opts _ (fun e => [AErr e])).
  intros items. induction items as [|item rest IH]; [apply respects_ret|].
  cbn [updateAppLabel_items].
  apply respects_bind; [apply respects_rangeAssign|]. intros labels.
  by apply (respects_checked_update _ _ _ (fun e => [_; AErr e])).
Qed.

Lemma respects_updateVersionStatus opts : respects (updateVersionStatus opts).
Proof.
  apply (respects_checked_list appGVR opts _ (fun e => [AErr e])).
  intros items. induction items as [|item rest IH]; [apply respects_ret|].
  cbn [updateVersionStatus_items].
  apply (respects_checked_list versionGVR _ _ (fun e => [_; AErr e])).
  intros versionItems. apply respects_bind.
  - induction versionItems as [|versionItem more IHv]; [apply respects_ret|].
    cbn [updateVersionStatus_versions].
    apply respects_bind; [by apply respects_same|]. intros t.
    by apply (respects_checked_update _ _ _ (fun e => [_; AErr e])).
  - intros [e|]; [apply respects_ret|apply IH].
Qed.

Lemma respects_reconcile : respects reconcile.
Proof.
  unfold reconcile.
  repeat match goal with
         | |- respects (logf _ _ _) => apply respects_logf
         | |- respects (fatalIf _ _) => apply respects_fatalIf
         | |- respects (updateAppStatus _) => apply respects_updateAppStatus
         | |- respects (updateAppLabel _ _) => apply respects_updateAppLabel
         | |- respects (updateVersionStatus _) => apply respects_updateVersionStatus
         | |- respects (mbind _ _) => apply respects_bind; [|intros ?]
         end.
Qed.

Lemma respects_run : respects (run c).
Proof.
  unfold run.
  apply respects_bind; [by apply respects_same|]. intros w.
  apply respects_bind; [apply respects_logf|]. intros _.
  apply respects_bind; [apply respects_initDynamicClient|]. intros err.
  apply respects_bind; [apply respects_fatalIf|]. intros _.
  apply respects_bind; [apply respects_uploadChart|]. intros err'.
  apply respects_bind; [apply respects_fatalIf|]. intros _.
  apply respects_reconcile.
Qed.
End Respects.

Lemma sameConfig_trans w1 w2 w3 :
  sameConfig w1 w2 -> sameConfig w2 w3 -> sameConfig w1 w3.
Proof. intros [E1 C1] [E2 C2]. split; congruence. Qed.

Lemma adds_refl Q w : adds Q w w.
Proof. exists []. by rewrite app_nil_r. Qed.

Lemma adds_trans Q w1 w2 w3 : adds Q w1 w2 -> adds Q w2 w3 -> adds Q w1 w3.
Proof.
  intros (evs1 & T1 & Q1) (evs2 & T2 & Q2). exists (evs1 ++ evs2).
  split; [|by apply Forall_app]. rewrite T2, T1. by rewrite app_assoc.
Qed.

Lemma adds_emit Q w ev : Q ev -> adds Q w (set_trace (trace w ++ [ev]) w).
Proof. intros HQ. exists [ev]. split; [done|]. by constructor. Qed.

Lemma adds_store Q w s : adds Q w (set_cluster s w).
Proof. exists []. by rewrite app_nil_r. Qed.

(** [run] and everything it calls read the configuration and never assign
    it. *)
Lemma run_sameConfig c w : sameConfig w (run c w).2.
Proof.
  by apply (respects_run sameConfig (fun w => conj eq_refl eq_refl)
              sameConfig_trans (fun _ => True)).
Qed.

(** X1.  The upload phase stays off the cluster API, and the reconciliation
    makes no HTTP request and never sleeps: [uploadChart] adds logs, sleeps
    and requests with the headers of its client, nothing else; the four
    stages of [run] add logs and cluster API calls, nothing else. *)
Theorem phases_keep_to_their_channel c w :
  adds (uploadEvent (clientHeader c)) w (uploadChart c w).2 /\
  adds reconcileEvent w (reconcile w).2.
Proof.
  split.
  - by apply (respects_uploadChart _ (adds_refl _) (adds_trans _)
                (uploadEvent (clientHeader c)) (adds_emit _) (adds_store _)).
  - by apply (respects_reconcile _ (adds_refl _) (adds_trans _)
                reconcileEvent (adds_emit _) (adds_store _)).
Qed.

(** ** Start-up *)

(** X2.  When the cluster client cannot be built or the index cannot be
    fetched, [run] ends before the first request and the first cluster API
    call: with [os.Exit(1)] when [GetConfigOrDie] gives up, with
    [log.Fatal] otherwise. *)
Theorem run_startup_failure c w :
  (kubeConfig (env w) = ConfigDie ->
   (run c w).1 = OsExit 1 /\
   existsb remote (since w (run c w).2) = false) /\
  (forall e, kubeConfig (env w) = NewForConfigErr e ->
   (run c w).1 = Fatal /\
   existsb remote (since w (run c w).2) = false) /\
  (kubeConfig (env w) = ClientReady ->
   (forall index, helmRepo (env w) (repoURL w) <> Loaded index) ->
   (run c w).1 = Fatal /\
   existsb remote (since w (run c w).2) = false /\
   cluster (run c w).2 = cluster w).
Proof.
  unfold run, initDynamicClient, uploadChart, mbind, M_bind, bind, get, logf,
    emit, osExit, ret, fatalIf, fatalf.
  split_and!.
  - intros Hk. cbn. rewrite Hk. cbn. split; [done|].
    by erewrite since_app by done.
  - intros e Hk. cbn. rewrite Hk. cbn. split; [done|].
    by erewrite since_app by (by rewrite <- !app_assoc).
  - intros Hk Hidx. cbn. rewrite Hk. cbn.
    destruct (helmRepo (env w) (repoURL w)) as [e|e|e|index];
      [| | |by destruct (Hidx index)];
      cbn; (split_and!; [done| |done]);
      by erewrite since_app by (by rewrite <- !app_assoc).
Qed.

Lemma run_startup_failure_witness :
  let e := {| net := allOK; ingest := fun _ _ _ s => s; faults := noFaults;
              clock := fun _ => "2024-05-01T10:00:00Z";
              helmRepo := fun _ => DownloadErr "connection refused";
              kubeConfig := ClientReady;
              readFile := fun _ => Ok "file-token" |} in
  let w := sampleWorld e 1 threeApps in
  (run sampleClient w).1 = Fatal /\
  existsb remote (since w (run sampleClient w).2) = false /\
  cluster (run sampleClient w).2 = cluster w.
Proof.
  cbv zeta.
  apply (proj2 (proj2 (run_startup_failure sampleClient _))); [reflexivity|].
  intros index. discriminate.
Defined.

(** X3.  The configuration that [main] leaves behind when both required flags
    are given: the server and the repository of the flags, the limit of the
    flag or 1, and as token the value of [--token] or, when that is empty
    or absent, the content of the token file.  Nothing that runs after the
    flags are parsed changes these variables. *)
Theorem main_configuration e s server repo tok lim :
  let args := {| flagServer := Some server; flagRepo := Some repo;
                 flagToken := tok; flagLimit := lim |} in
  let w' := (main args (start e s)).2 in
  serverURL w' = server /\
  repoURL w' = repo /\
  limit w' = default 1 lim /\
  token w' =
    (if String.eqb (default "" tok) "" then
       match readFile e tokenPath with
       | Ok data => data
       | Err _ => ""
       end
     else default "" tok).
Proof.
  cbv zeta. unfold main, Execute, rootCmd_Run, mbind, M_bind, bind, get, modify.
  cbn -[run]. destruct (String.eqb (default "" tok) "") eqn:Htok; cbn -[run].
  - destruct (readFile e tokenPath) as [data|err] eqn:Hfile; cbn -[run].
    2: { split_and!; try done. by apply String.eqb_eq in Htok. }
    match goal with |- context [run ?c ?w1] =>
      destruct (run_sameConfig c w1) as [_ Hc]; destruct (run c w1) as [r w2] end.
    cbn [snd] in Hc. unfold config in Hc. cbn in Hc.
    injection Hc as H1 H2 H3 H4.
    by destruct r.
  - match goal with |- context [run ?c ?w1] =>
      destruct (run_sameConfig c w1) as [_ Hc]; destruct (run c w1) as [r w2] end.
    cbn [snd] in Hc. unfold config in Hc. cbn in Hc.
    injection Hc as H1 H2 H3 H4.
    by destruct r.
Qed.

(** X4.  [main] starts nothing when a required flag is missing or no token can
    be had: without [--server] or [--repo] it prints the error of the flag
    check and exits with code 1; with an empty token and an unreadable
    token file it ends in [log.Fatal] after two log lines.  In both cases
    there is no request and no cluster API call, and the store is
    untouched. *)
Theorem main_refuses_to_start e s args :
  (flagServer args = None \/ flagRepo args = None ->
   (main args (start e s)).1 = OsExit 1 /\
   (exists msg, trace (main args (start e s)).2 = [EvPrintln msg]) /\
   cluster (main args (start e s)).2 = s) /\
  (is_Some (flagServer args) -> is_Some (flagRepo args) ->
   default "" (flagToken args) = "" ->
   forall err, readFile e tokenPath = Err err ->
   (main args (start e s)).1 = Fatal /\
   trace (main args (start e s)).2 =
     [EvLog InfoLevel
        "Using token from /var/run/secrets/kubesphere.io/serviceaccount/token" [];
      EvLog FatalLevel "Failed to read token file: %v" [AErr err]] /\
   cluster (main args (start e s)).2 = s).
Proof.
  unfold main, Execute, rootCmd_Run, mbind, M_bind, bind, get, modify.
  split.
  - intros Hmiss. cbn -[run].
    destruct (flagServer args), (flagRepo args); cbn; eauto.
    by destruct Hmiss.
  - intros [server ->] [repo ->] Htok err Hfile. cbn -[run].
    rewrite Htok. cbn -[run]. rewrite Hfile. done.
Qed.

Lemma main_refuses_to_start_witness :
  let e := {| net := allOK; ingest := fun _ _ _ s => s; faults := noFaults;
              clock := fun _ => "2024-05-01T10:00:00Z";
              helmRepo := fun _ => oneChart;
              kubeConfig := ClientReady;
              readFile := fun _ => Err "no such file" |} in
  let withoutRepo := {| flagServer := Some "http://ks"; flagRepo := None;
                        flagToken := Some "abc"; flagLimit := Some 3 |} in
  let withoutToken := {| flagServer := Some "http://ks";
                         flagRepo := Some "http://charts";
                         flagToken := None; flagLimit := None |} in
  (main withoutRepo (start e threeApps)).1 = OsExit 1 /\
  (main withoutToken (start e threeApps)).1 = Fatal.
Proof.
  cbv zeta. split.
  - apply (proj1 (main_refuses_to_start _ threeApps _)). by right.
  - eapply (proj2 (main_refuses_to_start _ threeApps _)); try done.
Defined.

(** ** More about the uploader *)

Lemma sleeps_app evs1 evs2 : sleeps (evs1 ++ evs2) = sleeps evs1 ++ sleeps evs2.
Proof. apply omap_app. Qed.

Lemma bodiesFollow_app evs1 : forall last evs2,
  bodiesFollow last evs1 ->
  (forall last', bodiesFollow last' evs2) ->
  bodiesFollow last (evs1 ++ evs2).
Proof.
  induction evs1 as [|ev evs1 IH]; intros last evs2 H1 H2; [apply H2|].
  destruct H1 as [Hev H1]. split; [done|]. by apply IH.
Qed.

(** The events of one iteration: no sleep, and a POST only directly after
    its GET. *)
Lemma attempt_events c appID entry w :
  exists evs,
    trace (attempt c appID entry w).2 = trace w ++ evs /\
    sleeps evs = [] /\
    (forall last, bodiesFollow last evs).
Proof.
  unfold attempt.
  destruct (Deprecated entry).
  { eexists. split_and!; [done|done|]. intros last. by cbn. }
  destruct (URLs entry) as [|url0 urls].
  { exists []. rewrite app_nil_r. by split_and!. }
  unfold mbind, M_bind, bind, Get, Post, execute, get, logf, emit, ret; cbn.
  destruct (net _ _ _) as [err|resp]; cbn.
  { eexists. rewrite <- app_assoc. split_and!; [done|done|].
    intros last. cbn. by split_and!. }
  destruct (IsError resp) eqn:He; cbn.
  { eexists. rewrite <- app_assoc. split_and!; [done|done|].
    intros last. cbn. by split_and!. }
  destruct (net _ _ _) as [err|resp']; cbn.
  { eexists. rewrite <- !app_assoc. split_and!; [done|done|].
    intros last. cbn. split_and!; try done. intros _. by eexists _, _. }
  destruct (IsError resp'); cbn.
  { eexists. rewrite <- !app_assoc. split_and!; [done|done|].
    intros last. cbn. split_and!; try done. intros _. by eexists _, _. }
  eexists. rewrite <- !app_assoc. split_and!; [done|done|].
  intros last. cbn. split_and!; try done. intros _. by eexists _, _.
Qed.

(** X5.  The upload request of every POST is made of the chart that was just
    fetched: in the trace of [uploadChart] each POST directly follows a GET
    answered without error and carries, base64-encoded, the body of that
    answer, with the fixed repository name, category mark, workspace and
    application type; requests are never sent out of this order, and a GET
    carries no body. *)
Theorem uploadChart_bodies c w :
  bodiesFollow None (since w (uploadChart c w).2).
Proof.
  assert (forall appID entries success w0,
            exists evs,
              trace (uploadEntries c appID success entries w0).2 = trace w0 ++ evs /\
              forall last, bodiesFollow last evs) as Hentries.
  { intros appID entries.
    induction entries as [|entry rest IH]; intros success w0.
    { exists []. by rewrite app_nil_r. }
    rewrite uploadEntries_step.
    destruct (attempt_events c appID entry w0) as (evs1 & T1 & _ & B1).
    destruct (attempt c appID entry w0) as [[[| |]|msg| |code] w1];
      cbn [fst snd] in *; try by exists evs1.
    - destruct (IH success w1) as (evs2 & T2 & B2).
      exists (evs1 ++ evs2). split; [by rewrite T2, T1, app_assoc|].
      intros last. by apply bodiesFollow_app.
    - destruct (limit w1 <=? success + 1); [by exists evs1|].
      destruct (IH (success + 1) (sleep 200 w1).2) as (evs2 & T2 & B2).
      exists (evs1 ++ [EvSleep 200] ++ evs2).
      split; [rewrite T2; cbn; by rewrite T1, <- !app_assoc|].
      intros last. apply bodiesFollow_app; [done|].
      intros last'. split; [done|]. apply B2. }
  assert (forall index w0,
            exists evs,
              trace (uploadPackages c index w0).2 = trace w0 ++ evs /\
              forall last, bodiesFollow last evs) as Hpackages.
  { induction index as [|[name entries] more IH]; intros w0.
    { exists []. by rewrite app_nil_r. }
    cbn [uploadPackages]. unfold mbind, M_bind, bind.
    destruct (Hentries "" entries 0 w0) as (evs1 & T1 & B1).
    destruct (uploadEntries c "" 0 entries w0) as [[[]|msg| |code] w1];
      cbn [fst snd] in *; try by exists evs1.
    destruct (IH w1) as (evs2 & T2 & B2).
    exists (evs1 ++ evs2). split; [by rewrite T2, T1, app_assoc|].
    intros last. by apply bodiesFollow_app. }
  unfold uploadChart, mbind, M_bind, bind, get.
  destruct (helmRepo (env w) (repoURL w)) as [e|e|e|index]; cbn [fst snd];
    try (erewrite since_app by reflexivity; by cbn).
  destruct (Hpackages index w) as (evs & T & B).
  destruct (uploadPackages c index w) as [[[]|msg| |code] w1];
    cbn [fst snd ret] in *; by rewrite (since_app _ _ _ T).
Qed.

(** X6.  The pacing of the uploader: every sleep lasts 200 ms; a package gets
    one sleep after each upload, except after the upload that brings the
    counter to the limit, which ends the package without a sleep; failed
    entries cause no sleep. *)
Theorem uploadEntries_sleeps c appID entries : forall success w,
  let evs := since w (uploadEntries c appID success entries w).2 in
  Forall (fun ms => ms = 200) (sleeps evs) /\
  Z.of_nat (length (sleeps evs)) =
    successes evs -
    (if (0 <? successes evs) && (limit w <=? success + successes evs)
     then 1 else 0).
Proof.
  induction entries as [|entry rest IH]; intros success w; cbv zeta.
  { cbn. erewrite since_app by (by rewrite app_nil_r). by cbn. }
  rewrite uploadEntries_step.
  pose proof (attempt_inv c appID entry w) as Ha. cbv zeta in Ha.
  destruct (attempt_events c appID entry w) as (evs1' & T1' & S1 & _).
  destruct (attempt c appID entry w) as [r1 w1]. cbn [fst snd] in *.
  destruct Ha as (_ & Hl & _ & evs1 & T1 & Hsucc & _).
  assert (evs1' = evs1) as -> by (rewrite T1 in T1'; by apply app_inv_head in T1').
  clear T1'.
  destruct r1 as [[| |]|msg| |code]; cbn [fst snd];
    try (rewrite (since_app _ _ _ T1), S1, Hsucc; by cbn).
  - (* failed *)
    destruct (uploadEntries_trace c appID success rest w1) as (evs2 & T2).
    specialize (IH success w1). cbv zeta in IH.
    rewrite (since_app _ _ _ T2) in IH. destruct IH as [F2 N2].
    rewrite (since_app _ _ (evs1 ++ evs2)) by (by rewrite T2, T1, app_assoc).
    rewrite sleeps_app, S1, successes_app, Hsucc. cbn [app].
    rewrite Hl in N2. split; [done|]. rewrite N2. by rewrite Z.add_0_l.
  - (* uploaded *)
    destruct (Z.leb_spec (limit w1) (success + 1)) as [Hlim|Hlim]; cbn [fst snd].
    + rewrite (since_app _ _ _ T1), S1, Hsucc. split; [done|]. cbn [length].
      rewrite Hl in Hlim.
      destruct (Z.leb_spec (limit w) (success + 1)); [done|lia].
    + destruct (uploadEntries_trace c appID (success + 1) rest (sleep 200 w1).2)
        as (evs2 & T2).
      specialize (IH (success + 1) (sleep 200 w1).2). cbv zeta in IH.
      rewrite (since_app _ _ _ T2) in IH. destruct IH as [F2 N2].
      change (limit (sleep 200 w1).2) with (limit w1) in N2. rewrite Hl in *.
      rewrite (since_app _ _ (evs1 ++ [EvSleep 200] ++ evs2))
        by (rewrite T2; cbn; by rewrite T1, <- !app_assoc).
      rewrite !sleeps_app, S1, !successes_app, Hsucc.
      change (sleeps [EvSleep 200]) with [200].
      change (successes [EvSleep 200]) with 0.
      split; [by constructor|]. cbn [app length].
      assert (0 <= successes evs2) as Hnn by (unfold successes; lia).
      rewrite Nat2Z.inj_succ, N2.
      destruct (Z.ltb_spec 0 (successes evs2)),
        (Z.ltb_spec 0 (1 + (0 + successes evs2))),
        (Z.leb_spec (limit w) (success + 1 + successes evs2)),
        (Z.leb_spec (limit w) (success + (1 + (0 + successes evs2))));
        cbn; lia.
Qed.

Lemma attempt_uploads c appID entry w :
  alwaysAnswers (env w) ->
  Deprecated entry = false -> URLs entry <> [] ->
  (attempt c appID entry w).1 = Ret Uploaded.
Proof.
  intros Hnet Hd Hu. unfold attempt. rewrite Hd.
  destruct (URLs entry) as [|url0 urls]; [done|].
  unfold mbind, M_bind, bind, Get, Post, execute, get, logf, emit, ret; cbn.
  destruct (Hnet (trace w) {| Method := "GET"; URL := url0;
                              Header := clientHeader c; Body := None |})
    as (resp & -> & ->). cbn.
  match goal with |- context [net (env w) ?h ?r] =>
    destruct (Hnet h r) as (resp' & -> & ->) end.
  done.
Qed.

(** X7.  When every exchange succeeds, a package of [n] entries, none
    deprecated and each with a URL, gets exactly [min n (max 1 K)] uploads
    for the limit [K], of its first entries in index order, and the loop
    returns. *)
Theorem uploadEntries_uploads_first c entries w :
  alwaysAnswers (env w) ->
  Forall (fun e => Deprecated e = false /\ URLs e <> []) entries ->
  let run := uploadEntries c "" 0 entries w in
  let k := Z.min (Z.of_nat (length entries)) (Z.max 1 (limit w)) in
  run.1 = Ret tt /\
  successes (since w run.2) = k /\
  Some <$> gets (since w run.2) =
    (fun e => head (URLs e)) <$> take (Z.to_nat k) entries.
Proof.
  intros Hnet Hall. cbv zeta.
  assert (forall success w0,
            env w0 = env w -> limit w0 = limit w ->
            let run := uploadEntries c "" success entries w0 in
            let k := Z.min (Z.of_nat (length entries))
                       (Z.max 1 (limit w - success)) in
            run.1 = Ret tt /\
            exists evs,
              trace run.2 = trace w0 ++ evs /\
              successes evs = k /\
              Some <$> gets evs =
                (fun e => head (URLs e)) <$> take (Z.to_nat k) entries) as H.
  { clear -Hnet Hall.
    induction entries as [|entry rest IH]; intros success w0 He Hl; cbv zeta.
    { split; [done|]. exists []. rewrite app_nil_r. split_and!.
      - done.
      - change (successes []) with 0. cbn [length]. lia.
      - by rewrite take_nil. }
    apply Forall_cons in Hall as [[Hd Hu] Hall]. specialize (IH Hall).
    rewrite uploadEntries_step.
    assert (alwaysAnswers (env w0)) as Hnet0 by by rewrite He.
    pose proof (attempt_uploads c "" entry w0 Hnet0 Hd Hu) as Hup.
    pose proof (attempt_inv c "" entry w0) as Ha. cbv zeta in Ha.
    destruct (attempt c "" entry w0) as [r1 w1]. cbn [fst snd] in *. subst r1.
    destruct Ha as (He1 & Hl1 & _ & evs1 & T1 & Hsucc & Hget & _).
    destruct (Z.leb_spec (limit w1) (success + 1)) as [Hlim|Hlim]; cbn [fst snd].
    - split; [done|]. exists evs1. rewrite Hl1, Hl in Hlim.
      assert (Z.min (Z.of_nat (length (entry :: rest)))
                (Z.max 1 (limit w - success)) = 1) as -> by (cbn [length]; lia).
      by split_and!.
    - specialize (IH (success + 1) (sleep 200 w1).2).
      cbv zeta in IH. destruct IH as (Hr & evs2 & T2 & Hsucc2 & Hget2);
        [cbn; congruence..|].
      split; [done|]. exists (evs1 ++ [EvSleep 200] ++ evs2).
      rewrite Hl1, Hl in Hlim.
      assert (Z.min (Z.of_nat (length (entry :: rest)))
                (Z.max 1 (limit w - success)) =
              1 + Z.min (Z.of_nat (length rest))
                    (Z.max 1 (limit w - (success + 1)))) as Hk
        by (cbn [length]; lia).
      split_and!.
      + rewrite T2. cbn. by rewrite T1, <- !app_assoc.
      + rewrite !successes_app, Hsucc, Hsucc2, Hk.
        change (successes [EvSleep 200]) with 0. lia.
      + rewrite !gets_app, !fmap_app, Hget, Hget2, Hk.
        change (gets [EvSleep 200]) with (@nil string).
        rewrite Z2Nat.inj_add by lia. done. }
  destruct (H 0 w eq_refl eq_refl) as (Hr & evs & T & Hsucc & Hget).
  rewrite Z.sub_0_r in *. by rewrite (since_app _ _ _ T).
Qed.

Lemma uploadEntries_uploads_first_witness :
  let entries := [nginx "3.0" false; nginx "2.0" false; nginx "1.0" false] in
  let w := sampleWorld (sampleEnv allOK (Loaded []) noFaults) 2 emptyStore in
  let run := uploadEntries sampleClient "" 0 entries w in
  run.1 = Ret tt /\
  successes (since w run.2) = 2 /\
  Some <$> gets (since w run.2) =
    [Some "http://charts/nginx-3.0.tgz"; Some "http://charts/nginx-2.0.tgz"].
Proof.
  cbv zeta.
  apply (uploadEntries_uploads_first sampleClient
           [nginx "3.0" false; nginx "2.0" false; nginx "1.0" false]
           (sampleWorld (sampleEnv allOK (Loaded []) noFaults) 2 emptyStore)).
  - intros hist req. by eexists.
  - repeat constructor; done.
Defined.

(** X8.  Each package starts with a fresh counter: the run over an index of
    [p] packages makes at most [p * max 1 K] uploads for the limit [K]. *)
Theorem uploadPackages_at_most c index : forall w,
  successes (since w (uploadPackages c index w).2) <=
  Z.of_nat (length index) * Z.max 1 (limit w).
Proof.
  induction index as [|[name entries] more IH]; intros w.
  { cbn. erewrite since_app by (by rewrite app_nil_r). by cbn. }
  cbn [uploadPackages]. unfold mbind, M_bind, bind.
  destruct (uploadEntries_inv c "" entries 0 w)
    as (_ & Hl & _ & evs1 & n & T1 & _ & _ & _ & Hsucc & _).
  rewrite Z.sub_0_r in Hsucc.
  destruct (uploadEntries c "" 0 entries w) as [r1 w1]. cbn [fst snd] in *.
  assert (0 <= successes evs1) as Hnn by (unfold successes; lia).
  destruct r1 as [[]|msg| |code]; cbn [fst snd];
    try (rewrite (since_app _ _ _ T1); cbn [length]; nia).
  destruct (uploadPackages_inv c more w1) as (_ & _ & _ & evs2 & T2 & _).
  specialize (IH w1). rewrite (since_app _ _ _ T2), Hl in IH.
  rewrite (since_app _ _ (evs1 ++ evs2)) by (by rewrite T2, T1, app_assoc).
  rewrite successes_app. cbn [length]. nia.
Qed.

(** ** More about the label stage *)

Lemma patched_idemp label labels :
  patched label (patched label labels) = patched label labels.
Proof.
  destruct labels as [m|]; [|done]. cbn.
  by rewrite (assoc_L (∪)), (idemp_L (∪)).
Qed.

Lemma Store_eq (s1 s2 : Store) :
  applications s1 = applications s2 ->
  applicationversions s1 = applicationversions s2 ->
  s1 = s2.
Proof. destruct s1, s2. cbn. by intros -> ->. Qed.

(** X9.  The label stage is idempotent: once it has returned [nil], running it
    again with the same selector and the same patch leaves the store as it
    is, whatever the second run returns. *)
Theorem updateAppLabel_idempotent opts label w :
  (updateAppLabel opts label w).1 = Ret None ->
  let w1 := (updateAppLabel opts label w).2 in
  cluster (updateAppLabel opts label w1).2 = cluster w1.
Proof.
  intros Hr. cbv zeta.
  destruct (updateAppLabel_store opts label w) as (_ & Hinv & Hno & Hyes).
  specialize (Hyes Hr).
  destruct (updateAppLabel_store opts label (updateAppLabel opts label w).2)
    as (Hv1 & Hinv1 & Hno1 & _).
  apply Store_eq; [|done]. apply map_eq. intros n.
  destruct (applications (cluster w) !! n) as [st|] eqn:Hst.
  - destruct (selects (LabelSelector opts) (objLabels st)) eqn:Hsel.
    + specialize (Hyes n st Hst Hsel).
      destruct (Hinv1 n) as [->| ->]; [done|]. rewrite Hyes. cbn.
      unfold patchState. cbn. by rewrite patched_idemp.
    + specialize (Hno n st Hst Hsel). by rewrite (Hno1 n st Hno Hsel).
  - assert (applications (cluster (updateAppLabel opts label w).2) !! n = None)
      as Hnone by (destruct (Hinv n) as [->| ->]; by rewrite Hst).
    destruct (Hinv1 n) as [->| ->]; by rewrite Hnone.
Qed.

Lemma updateAppLabel_idempotent_witness :
  let w := sampleWorld (sampleEnv allOK (Loaded []) noFaults) 1 threeApps in
  let w1 := (updateAppLabel listOptions store w).2 in
  (updateAppLabel listOptions store w).1 = Ret None /\
  cluster (updateAppLabel listOptions store w1).2 = cluster w1.
Proof.
  cbv zeta.
  assert ((updateAppLabel listOptions store
             (sampleWorld (sampleEnv allOK (Loaded []) noFaults) 1 threeApps)).1 =
          Ret None) as Hr by (vm_compute; reflexivity).
  split; [exact Hr|]. exact (updateAppLabel_idempotent _ _ _ Hr).
Defined.

(** X10.  The category rewrite retires the mark: once the stage with the patch
    [categoryName] has returned [nil], the selector of [run] selects no
    application any more, so a later list with it is empty. *)
Theorem categoryName_retires_mark w :
  (updateAppLabel listOptions categoryName w).1 = Ret None ->
  listObjects appGVR listOptions
    (cluster (updateAppLabel listOptions categoryName w).2) = Ok [].
Proof.
  intros Hr.
  destruct (updateAppLabel_store listOptions categoryName w)
    as (_ & Hinv & _ & Hyes).
  specialize (Hyes Hr).
  destruct (listObjects appGVR listOptions
              (cluster (updateAppLabel listOptions categoryName w).2))
    as [items|e] eqn:Hl.
  2: { unfold listObjects, resource in Hl. by rewrite decide_True in Hl. }
  f_equal. apply elem_of_nil_inv. intros item Hin.
  apply (listObjects_app _ _ _ Hl) in Hin as [Hst Hsel].
  apply selects_listOptions in Hsel as (m & Hm & Hmark).
  assert (forall st,
            Some {| objLabels := metaLabels item; objStatus := status item |} =
            Some (patchState categoryName st) -> False) as Hpatched.
  { intros st [= Hlab _]. rewrite Hm in Hlab.
    destruct (objLabels st) as [m0|]; [|done]. cbn -[categoryName] in Hlab.
    injection Hlab as ->.
    assert ((categoryName ∪ m0) !! categoryKey =
            Some "kubesphere-app-uncategorized") as Hu
      by by apply lookup_union_Some_l.
    rewrite Hu in Hmark. discriminate. }
  destruct (applications (cluster w) !! metaName item) as [st|] eqn:Hw.
  - destruct (Hinv (metaName item)) as [Hi|Hi].
    + rewrite Hi, Hw in Hst. injection Hst as ->.
      assert (selects (LabelSelector listOptions) (metaLabels item) = true)
        as Hsel.
      { rewrite Hm.
        change (bool_decide (Some m ≫= (.!! categoryKey) = Some mark) = true).
        by apply bool_decide_eq_true. }
      specialize (Hyes _ _ Hw Hsel). rewrite Hi, Hw in Hyes.
      exact (Hpatched _ Hyes).
    + rewrite Hi, Hw in Hst. exact (Hpatched _ (eq_sym Hst)).
  - destruct (Hinv (metaName item)) as [Hi|Hi]; rewrite Hi, Hw in Hst; done.
Qed.

Lemma categoryName_retires_mark_witness :
  let w := sampleWorld (sampleEnv allOK (Loaded []) noFaults) 1 threeApps in
  (updateAppLabel listOptions categoryName w).1 = Ret None /\
  listObjects appGVR listOptions
    (cluster (updateAppLabel listOptions categoryName w).2) = Ok [].
Proof.
  cbv zeta.
  assert ((updateAppLabel listOptions categoryName
             (sampleWorld (sampleEnv allOK (Loaded []) noFaults) 1 threeApps)).1 =
          Ret None) as Hr by (vm_compute; reflexivity).
  split; [exact Hr|]. exact (categoryName_retires_mark _ Hr).
Defined.

(** ** The stores of the status stages *)

Lemma updateAppStatus_items_loop items w :
  updateAppStatus_items items w =
  statusLoop appGVR
    (fun t item => SetNestedField (SetNestedField item "active" "state") t "updateTime")
    "Failed to update status for app %s: %v"
    (fun item e => [AStr (GetName item); AErr e]) items w.
Proof.
  revert w. induction items as [|item rest IH]; intros w; [done|].
  cbn [updateAppStatus_items statusLoop]. unfold mbind, M_bind, bind, now.
  by destruct (ResourceUpdateStatus _ _ _) as [[[e|]|msg| |code] w1].
Qed.

Lemma updateVersionStatus_versions_loop item versionItems w :
  updateVersionStatus_versions item versionItems w =
  statusLoop versionGVR
    (fun t v => SetNestedField
                  (SetNestedField (SetNestedField v t "updated") "admin" "userName")
                  "active" "state")
    "Failed to update version status for app %s: %v"
    (fun _ e => [AStr (GetName item); AErr e]) versionItems w.
Proof.
  revert w. induction versionItems as [|v rest IH]; intros w; [done|].
  cbn [updateVersionStatus_versions statusLoop]. unfold mbind, M_bind, bind, now.
  by destruct (ResourceUpdateStatus _ _ _) as [[[e|]|msg| |code] w1].
Qed.

Lemma activeAt_again t1 t2 st : activeAt t2 (activeAt t1 st) = activeAt t2 st.
Proof.
  unfold activeAt. apply map_eq. intros k. rewrite !lookup_insert.
  repeat case_decide; done.
Qed.

Lemma adminActiveAt_again t1 t2 st :
  adminActiveAt t2 (adminActiveAt t1 st) = adminActiveAt t2 st.
Proof.
  unfold adminActiveAt. apply map_eq. intros k. rewrite !lookup_insert.
  repeat case_decide; done.
Qed.

Lemma objects_set_resource gvr m s :
  gvr = appGVR \/ gvr = versionGVR ->
  objects gvr (set_resource gvr m s) = m /\
  forall gvr', gvr' <> gvr ->
    objects gvr' (set_resource gvr m s) = objects gvr' s.
Proof.
  intros [-> | ->]; (split; [done|]); intros gvr' Hne;
    unfold objects, resource, set_resource; cbn;
    repeat case_decide; try done; congruence.
Qed.

Lemma resource_objects gvr s :
  gvr = appGVR \/ gvr = versionGVR -> resource gvr s = Some (objects gvr s).
Proof. by intros [-> | ->]. Qed.

(** The three ways a status update ends. *)
Lemma ResourceUpdateStatus_cases gvr obj w :
  gvr = appGVR \/ gvr = versionGVR ->
  let run := ResourceUpdateStatus gvr obj w in
  env run.2 = env w /\
  match faults (env w) (trace w) (CallUpdateStatus gvr obj),
        objects gvr (cluster w) !! metaName obj with
  | Some e, _ => run.1 = Ret (Some e) /\ cluster run.2 = cluster w
  | None, None => (exists e, run.1 = Ret (Some e)) /\ cluster run.2 = cluster w
  | None, Some st =>
    run.1 = Ret None /\
    cluster run.2 =
      set_resource gvr
        (<[metaName obj := {| objLabels := objLabels st; objStatus := status obj |}]>
           (objects gvr (cluster w))) (cluster w)
  end.
Proof.
  intros Hg. cbv zeta. unfold ResourceUpdateStatus, update. cbn [fst snd].
  destruct (faults _ _ _) as [e|]; [done|].
  unfold applyUpdateStatus. rewrite (resource_objects _ _ Hg).
  destruct (objects gvr (cluster w) !! metaName obj) as [st|]; cbn; eauto.
Qed.

Section StatusLoop.
Variable gvr : GroupVersionResource.
Variable f : string -> gmap string string -> gmap string string.
Variable touch : string -> Unstructured -> Unstructured.
Variable fmt : string.
Variable args : Unstructured -> error -> list Arg.
Variable e : Env.
Variable s0 : gmap string ObjState.
Hypothesis gvr_used : gvr = appGVR \/ gvr = versionGVR.
Hypothesis touch_name : forall t item, metaName (touch t item) = metaName item.
Hypothesis touch_status : forall t item, status (touch t item) = f t (status item).
Hypothesis f_again : forall t1 t2 st, f t2 (f t1 st) = f t2 st.

Lemma statusLoop_store items :
  forall w,
  env w = e ->
  Forall (listedFrom f e s0) items ->
  partlyRewritten gvr f e s0 (cluster w) ->
  let run := statusLoop gvr touch fmt args items w in
  env run.2 = e /\
  (forall gvr', gvr' <> gvr ->
     objects gvr' (cluster run.2) = objects gvr' (cluster w)) /\
  partlyRewritten gvr f e s0 (cluster run.2) /\
  (forall n, rewrittenAt gvr f e s0 (cluster w) n ->
     rewrittenAt gvr f e s0 (cluster run.2) n) /\
  (forall n, n ∉ metaName <$> items ->
     objects gvr (cluster run.2) !! n = objects gvr (cluster w) !! n) /\
  (run.1 = Ret None ->
     Forall (fun item => rewrittenAt gvr f e s0 (cluster run.2) (metaName item))
       items) /\
  (neverRefuses e -> run.1 = Ret None).
Proof.
  induction items as [|item rest IH]; intros w He Hitems Hinv; cbv zeta.
  { cbn. split_and!; try done. }
  apply Forall_cons in Hitems as [(st0 & Hst0 & Hstatus) Hrest].
  cbn [statusLoop]. unfold mbind, M_bind, bind, now. rewrite He.
  set (t := clock e (trace w)).
  pose proof (ResourceUpdateStatus_cases gvr (touch t item) w gvr_used) as Hc.
  cbv zeta in Hc. rewrite touch_name, touch_status, He in Hc.
  destruct (ResourceUpdateStatus gvr (touch t item) w) as [r1 w1].
  cbn [fst snd] in Hc. destruct Hc as [He1 Hc].
  assert (exists st, objects gvr (cluster w) !! metaName item = Some st /\
                     objLabels st = objLabels st0) as (st & Hcur & Hlab).
  { destruct (Hinv (metaName item)) as [H | [hist H]]; rewrite H, Hst0; eauto. }
  rewrite Hcur in Hc.
  destruct (faults e (trace w) _) as [err|] eqn:Hfault.
  { destruct Hc as [-> Hcl]. cbn. rewrite Hcl. split_and!; try done.
    intros Hnever. by rewrite Hnever in Hfault. }
  destruct Hc as [-> Hcl].
  assert ({| objLabels := objLabels st; objStatus := f t (status item) |} =
          touched f t st0) as Hval.
  { unfold touched. rewrite Hlab. f_equal.
    destruct Hstatus as [-> | [hist ->]]; [done | apply f_again]. }
  rewrite Hval in Hcl.
  destruct (objects_set_resource gvr
              (<[metaName item := touched f t st0]> (objects gvr (cluster w)))
              (cluster w) gvr_used) as [Hsame Hother].
  rewrite <- Hcl in Hsame, Hother.
  assert (rewrittenAt gvr f e s0 (cluster w1) (metaName item)) as Hdone.
  { exists (trace w). by rewrite Hsame, lookup_insert_eq, Hst0. }
  assert (forall n, n <> metaName item ->
            objects gvr (cluster w1) !! n = objects gvr (cluster w) !! n) as Hne.
  { intros n Hn. by rewrite Hsame, lookup_insert_ne. }
  assert (forall n, rewrittenAt gvr f e s0 (cluster w) n ->
            rewrittenAt gvr f e s0 (cluster w1) n) as Hkeep.
  { intros n [hist H]. destruct (decide (n = metaName item)) as [-> | Hn]; [done|].
    exists hist. by rewrite Hne. }
  assert (partlyRewritten gvr f e s0 (cluster w1)) as Hinv1.
  { intros n. destruct (decide (n = metaName item)) as [-> | Hn]; [by right|].
    destruct (Hinv n) as [H | H]; [left; by rewrite Hne | right; by apply Hkeep]. }
  destruct (IH w1 He1 Hrest Hinv1) as (IHe & IHo & IHi & IHk & IHn & IHd & IHr).
  split_and!.
  - done.
  - intros gvr' Hg. rewrite IHo, Hother; done.
  - done.
  - intros n Hn. by apply IHk, Hkeep.
  - intros n Hn. rewrite fmap_cons, not_elem_of_cons in Hn. destruct Hn as [Hn1 Hn2].
    rewrite IHn, Hne; done.
  - intros Hret. apply Forall_cons. split; [by apply IHk | by apply IHd].
  - done.
Qed.

End StatusLoop.

Lemma objects_app s : objects appGVR s = applications s.
Proof. done. Qed.

Lemma objects_version s : objects versionGVR s = applicationversions s.
Proof. done. Qed.

(** The store after [updateAppStatus]. *)
Lemma updateAppStatus_store opts w :
  let run := updateAppStatus opts w in
  let before := applications (cluster w) in
  let after := applications (cluster run.2) in
  env run.2 = env w /\
  applicationversions (cluster run.2) = applicationversions (cluster w) /\
  (forall n, after !! n = before !! n \/
     exists hist, after !! n = touched activeAt (clock (env w) hist) <$> before !! n) /\
  (forall n st, before !! n = Some st ->
     selects (LabelSelector opts) (objLabels st) = false -> after !! n = Some st) /\
  (run.1 = Ret None ->
   forall n st, before !! n = Some st ->
     selects (LabelSelector opts) (objLabels st) = true ->
     exists hist, after !! n = Some (touched activeAt (clock (env w) hist) st)) /\
  (neverRefuses (env w) -> run.1 = Ret None).
Proof.
  cbv zeta. unfold updateAppStatus, mbind, M_bind, bind, ResourceList.
  destruct (faults (env w) (trace w) _) as [err|] eqn:Hfault.
  { cbn. split_and!; try done; eauto.
    intros Hnever. by rewrite Hnever in Hfault. }
  destruct (listObjects appGVR opts (cluster w)) as [items|err] eqn:Hlist; [|done].
  cbn [errOf]. set (w0 := set_trace _ w).
  pose proof (listObjects_app _ _ _ Hlist) as Hitems.
  rewrite updateAppStatus_items_loop.
  assert (Forall (listedFrom activeAt (env w) (applications (cluster w))) items)
    as Hlisted.
  { apply Forall_forall. intros item Hin. apply Hitems in Hin as [Hin _].
    eexists. split; [exact Hin | by left]. }
  assert (partlyRewritten appGVR activeAt (env w) (applications (cluster w))
            (cluster w0)) as Hinit.
  { intros n. by left. }
  destruct (statusLoop_store appGVR activeAt
              (fun t item =>
                 SetNestedField (SetNestedField item "active" "state") t "updateTime")
              "Failed to update status for app %s: %v"
              (fun item e => [AStr (GetName item); AErr e])
              (env w) (applications (cluster w)) (or_introl eq_refl)
              (fun _ _ => eq_refl) (fun _ _ => eq_refl) activeAt_again
              items w0 eq_refl Hlisted Hinit)
    as (He & Ho & Hi & Hk & Hn & Hd & Hr).
  set (run := statusLoop _ _ _ _ _ _) in *.
  rewrite <- !objects_app. split_and!.
  - exact He.
  - rewrite <- !objects_version. by rewrite Ho.
  - intros n. destruct (Hi n) as [H | [hist H]]; [by left | right; by exists hist].
  - intros n st Hst Hsel. rewrite Hn; [exact Hst|].
    intros (item & -> & Hin)%list_elem_of_fmap. apply Hitems in Hin as [Hin Hyes].
    rewrite Hin in Hst. injection Hst as <-.
    cbn in Hsel. congruence.
  - intros Hret n st Hst Hsel.
    assert (toUnstructured (n, st) ∈ items) as Hin.
    { apply Hitems. cbn. split; [|done]. rewrite Hst. by destruct st. }
    specialize (Hd Hret). rewrite Forall_forall in Hd.
    destruct (Hd _ Hin) as [hist H]. exists hist. cbn in H.
    by rewrite H, Hst.
  - done.
Qed.

(** X11.  [updateAppStatus] writes nothing but the status of applications:
    the versions stay as they are, every application keeps its labels and
    has its old status or that status with [state] set to [active] and
    [updateTime] set to a reading of the clock, an application that the
    selector does not select is unchanged, and when the stage returns nil
    every selected application is rewritten.  With a server that refuses no
    call the stage returns nil. *)
Theorem updateAppStatus_activates opts w :
  let run := updateAppStatus opts w in
  let before := applications (cluster w) in
  let after := applications (cluster run.2) in
  applicationversions (cluster run.2) = applicationversions (cluster w) /\
  (forall n, after !! n = before !! n \/
     exists hist, after !! n = touched activeAt (clock (env w) hist) <$> before !! n) /\
  (forall n st, before !! n = Some st ->
     selects (LabelSelector opts) (objLabels st) = false -> after !! n = Some st) /\
  (run.1 = Ret None ->
   forall n st, before !! n = Some st ->
     selects (LabelSelector opts) (objLabels st) = true ->
     exists hist, after !! n = Some (touched activeAt (clock (env w) hist) st)) /\
  (neverRefuses (env w) -> run.1 = Ret None).
Proof. apply updateAppStatus_store. Qed.

Lemma listObjects_kind gvr opts s :
  gvr = appGVR \/ gvr = versionGVR ->
  exists items,
    listObjects gvr opts s = Ok items /\
    forall item,
      item ∈ items <->
      objects gvr s !! metaName item =
        Some {| objLabels := metaLabels item; objStatus := status item |} /\
      selects (LabelSelector opts) (metaLabels item) = true.
Proof.
  intros Hg. unfold listObjects. rewrite (resource_objects _ _ Hg).
  eexists. split; [done|]. intros item.
  rewrite list_elem_of_In, List.filter_In, <- list_elem_of_In.
  rewrite list_elem_of_fmap. split.
  - intros [([name st] & -> & Hin) Hsel]. apply elem_of_map_to_list in Hin.
    cbn in *. rewrite Hin. by destruct st.
  - intros [Hst Hsel]. split; [|done].
    exists (metaName item, {| objLabels := metaLabels item; objStatus := status item |}).
    split; [by destruct item|]. by apply elem_of_map_to_list.
Qed.

(** The selector that [updateVersionStatus] builds from the name of an
    application selects the versions whose app-id label is that name. *)
Lemma selects_app_id name labels :
  selects ("application.kubesphere.io/app-id=" +:+ name) labels =
  bool_decide (labels ≫= (.!! appIdKey) = Some name).
Proof. done. Qed.

(** What is stored of a partly rewritten kind has the labels of [s0]. *)
Lemma partlyRewritten_lookup gvr f e s0 s n cur :
  partlyRewritten gvr f e s0 s ->
  objects gvr s !! n = Some cur ->
  exists st0, s0 !! n = Some st0 /\ objLabels cur = objLabels st0 /\
    (objStatus cur = objStatus st0 \/
     exists hist, objStatus cur = f (clock e hist) (objStatus st0)).
Proof.
  intros Hinv Hcur. destruct (Hinv n) as [H | [hist H]]; rewrite Hcur in H.
  - exists cur. eauto.
  - destruct (s0 !! n) as [st0|]; [|done]. injection H as ->.
    exists st0. split_and!; [done..|]. right. by exists hist.
Qed.

Lemma partlyRewritten_stored gvr f e s0 s n st0 :
  partlyRewritten gvr f e s0 s ->
  s0 !! n = Some st0 ->
  exists cur, objects gvr s !! n = Some cur /\ objLabels cur = objLabels st0.
Proof.
  intros Hinv Hst0. destruct (Hinv n) as [H | [hist H]]; rewrite Hst0 in H; eauto.
Qed.

Lemma updateVersionStatus_items_store (e : Env) (s0 : gmap string ObjState) items :
  forall w,
  env w = e ->
  partlyRewritten versionGVR adminActiveAt e s0 (cluster w) ->
  let run := updateVersionStatus_items items w in
  env run.2 = e /\
  applications (cluster run.2) = applications (cluster w) /\
  partlyRewritten versionGVR adminActiveAt e s0 (cluster run.2) /\
  (forall n, rewrittenAt versionGVR adminActiveAt e s0 (cluster w) n ->
     rewrittenAt versionGVR adminActiveAt e s0 (cluster run.2) n) /\
  (forall n,
     (forall v item, s0 !! n = Some v -> item ∈ items ->
        objLabels v ≫= (.!! appIdKey) <> Some (metaName item)) ->
     applicationversions (cluster run.2) !! n =
     applicationversions (cluster w) !! n) /\
  (run.1 = Ret None ->
   forall n v item, s0 !! n = Some v -> item ∈ items ->
     objLabels v ≫= (.!! appIdKey) = Some (metaName item) ->
     rewrittenAt versionGVR adminActiveAt e s0 (cluster run.2) n) /\
  (neverRefuses e -> run.1 = Ret None).
Proof.
  induction items as [|item rest IH]; intros w He Hinv; cbv zeta.
  { cbn. split_and!; try done. intros _ n v item _ Hin. by apply elem_of_nil in Hin. }
  cbn [updateVersionStatus_items]. unfold ResourceList, mbind, M_bind, bind.
  rewrite He.
  destruct (faults e (trace w) _) as [err|] eqn:Hfault.
  { cbn. split_and!; try done. intros Hnever. by rewrite Hnever in Hfault. }
  destruct (listObjects_kind versionGVR
              {| LabelSelector := "application.kubesphere.io/app-id=" +:+ GetName item |}
              (cluster w) (or_intror eq_refl)) as (vitems & -> & Hvitems).
  cbn [errOf]. set (w0 := set_trace _ w).
  pose proof (updateVersionStatus_versions_loop item vitems w0) as Hloop.
  rewrite Hloop. clear Hloop.
  assert (Forall (listedFrom adminActiveAt e s0) vitems) as Hlisted.
  { apply Forall_forall. intros v Hin. apply Hvitems in Hin as [Hin _].
    destruct (partlyRewritten_lookup _ _ _ _ _ _ _ Hinv Hin) as (st0 & ? & _ & ?).
    by exists st0. }
  destruct (statusLoop_store versionGVR adminActiveAt
              (fun t v => SetNestedField
                  (SetNestedField (SetNestedField v t "updated") "admin" "userName")
                  "active" "state")
              "Failed to update version status for app %s: %v"
              (fun _ err => [AStr (GetName item); AErr err])
              e s0 (or_intror eq_refl)
              (fun _ _ => eq_refl) (fun _ _ => eq_refl) adminActiveAt_again
              vitems w0 He Hlisted Hinv)
    as (He1 & Ho1 & Hi1 & Hk1 & Hn1 & Hd1 & Hr1).
  destruct (statusLoop _ _ _ _ _ _) as [r1 w1]. cbn [fst snd] in *.
  assert (applications (cluster w1) = applications (cluster w)) as Happs1.
  { apply (Ho1 appGVR). done. }
  assert (forall n,
            (forall v, s0 !! n = Some v ->
               objLabels v ≫= (.!! appIdKey) <> Some (metaName item)) ->
            applicationversions (cluster w1) !! n =
            applicationversions (cluster w) !! n) as Hout1.
  { intros n Hn. apply Hn1.
    intros (v & -> & Hin)%list_elem_of_fmap. apply Hvitems in Hin as [Hin Hsel].
    destruct (partlyRewritten_lookup _ _ _ _ _ _ _ Hinv Hin) as (st0 & Hst0 & Hlab & _).
    cbn in Hlab.
    change (bool_decide (metaLabels v ≫= (.!! appIdKey) = Some (metaName item)) = true)
      in Hsel.
    apply bool_decide_eq_true in Hsel.
    apply (Hn st0 Hst0). by rewrite <- Hlab. }
  assert (r1 = Ret None ->
          forall n v, s0 !! n = Some v ->
            objLabels v ≫= (.!! appIdKey) = Some (metaName item) ->
            rewrittenAt versionGVR adminActiveAt e s0 (cluster w1) n) as Hin1.
  { intros Hret n v Hv Hid.
    destruct (partlyRewritten_stored _ _ _ _ _ _ _ Hinv Hv) as (cur & Hcur & Hlab).
    assert (toUnstructured (n, cur) ∈ vitems) as Hin.
    { apply Hvitems. cbn. split; [rewrite Hcur; by destruct cur|].
      change (bool_decide (objLabels cur ≫= (.!! appIdKey) = Some (metaName item)) = true).
      apply bool_decide_eq_true. by rewrite Hlab. }
    specialize (Hd1 Hret). rewrite Forall_forall in Hd1. apply (Hd1 _ Hin). }
  destruct r1 as [[err|]|msg| |code].
  - cbn. split_and!; try done.
    intros n Hn. apply Hout1. intros v Hv. apply (Hn v item Hv). by left.
  - destruct (IH w1 He1 Hi1) as (IHe & IHa & IHi & IHk & IHn & IHd & IHr).
    split_and!.
    + done.
    + by rewrite IHa.
    + done.
    + intros n Hn. by apply IHk, Hk1.
    + intros n Hn. rewrite IHn, Hout1; [done| |].
      * intros v Hv. apply (Hn v item Hv). by left.
      * intros v item' Hv Hin. apply (Hn v item' Hv). by right.
    + intros Hret n v item' Hv Hin Hid. apply elem_of_cons in Hin as [-> | Hin].
      * apply IHk. by apply (Hin1 eq_refl n v).
      * by apply (IHd Hret n v item').
    + done.
  - cbn. split_and!; try done.
    intros n Hn. apply Hout1. intros v Hv. apply (Hn v item Hv). by left.
  - cbn. split_and!; try done.
    intros n Hn. apply Hout1. intros v Hv. apply (Hn v item Hv). by left.
  - cbn. split_and!; try done.
    intros n Hn. apply Hout1. intros v Hv. apply (Hn v item Hv). by left.
Qed.

(** The store after [updateVersionStatus]. *)
Lemma updateVersionStatus_store opts w :
  let run := updateVersionStatus opts w in
  let before := applicationversions (cluster w) in
  let after := applicationversions (cluster run.2) in
  let selected a :=
    exists st, applications (cluster w) !! a = Some st /\
               selects (LabelSelector opts) (objLabels st) = true in
  env run.2 = env w /\
  applications (cluster run.2) = applications (cluster w) /\
  (forall n, after !! n = before !! n \/
     exists hist,
       after !! n = touched adminActiveAt (clock (env w) hist) <$> before !! n) /\
  (forall n v, before !! n = Some v ->
     (forall a, selected a -> objLabels v ≫= (.!! appIdKey) <> Some a) ->
     after !! n = Some v) /\
  (run.1 = Ret None ->
   forall n v a, before !! n = Some v -> selected a ->
     objLabels v ≫= (.!! appIdKey) = Some a ->
     exists hist,
       after !! n = Some (touched adminActiveAt (clock (env w) hist) v)) /\
  (neverRefuses (env w) -> run.1 = Ret None).
Proof.
  cbv zeta. unfold updateVersionStatus, mbind, M_bind, bind, ResourceList.
  destruct (faults (env w) (trace w) _) as [err|] eqn:Hfault.
  { cbn. split_and!; try done; eauto.
    intros Hnever. by rewrite Hnever in Hfault. }
  destruct (listObjects appGVR opts (cluster w)) as [items|err] eqn:Hlist; [|done].
  cbn [errOf]. set (w0 := set_trace _ w).
  pose proof (listObjects_app _ _ _ Hlist) as Hitems.
  assert (partlyRewritten versionGVR adminActiveAt (env w)
            (applicationversions (cluster w)) (cluster w0)) as Hinit.
  { intros n. by left. }
  destruct (updateVersionStatus_items_store (env w)
              (applicationversions (cluster w)) items w0 eq_refl Hinit)
    as (He & Ha & Hi & Hk & Hn & Hd & Hr).
  set (run := updateVersionStatus_items items w0) in *.
  split_and!.
  - exact He.
  - exact Ha.
  - intros n. destruct (Hi n) as [H | [hist H]]; [by left | right; by exists hist].
  - intros n v Hv Hnone. rewrite Hn; [exact Hv|].
    intros v' item Hv' Hin. apply Hitems in Hin as [Hin Hsel].
    rewrite Hv in Hv'. injection Hv' as <-. apply Hnone. eauto.
  - intros Hret n v a Hv (st & Hst & Hsel) Hid.
    assert (toUnstructured (a, st) ∈ items) as Hin.
    { apply Hitems. cbn. split; [|done]. rewrite Hst. by destruct st. }
    destruct (Hd Hret n v _ Hv Hin Hid) as [hist H].
    exists hist. etransitivity; [exact H|]. by rewrite Hv.
  - exact Hr.
Qed.

(** X12.  [updateVersionStatus] writes nothing but the status of versions:
    the applications stay as they are, every version keeps its labels and
    has its old status or that status with [updated] set to a reading of
    the clock, [userName] to [admin] and [state] to [active], a version
    whose app-id label names no selected application is unchanged, and when
    the stage returns nil every version whose app-id label names a selected
    application is rewritten.  With a server that refuses no call the stage
    returns nil. *)
Theorem updateVersionStatus_activates opts w :
  let run := updateVersionStatus opts w in
  let before := applicationversions (cluster w) in
  let after := applicationversions (cluster run.2) in
  let selected a :=
    exists st, applications (cluster w) !! a = Some st /\
               selects (LabelSelector opts) (objLabels st) = true in
  applications (cluster run.2) = applications (cluster w) /\
  (forall n, after !! n = before !! n \/
     exists hist,
       after !! n = touched adminActiveAt (clock (env w) hist) <$> before !! n) /\
  (forall n v, before !! n = Some v ->
     (forall a, selected a -> objLabels v ≫= (.!! appIdKey) <> Some a) ->
     after !! n = Some v) /\
  (run.1 = Ret None ->
   forall n v a, before !! n = Some v -> selected a ->
     objLabels v ≫= (.!! appIdKey) = Some a ->
     exists hist,
       after !! n = Some (touched adminActiveAt (clock (env w) hist) v)) /\
  (neverRefuses (env w) -> run.1 = Ret None).
Proof. apply updateVersionStatus_store. Qed.

(** ** The reconciliation against a server that refuses no call *)

Lemma stage_env (stage : M (option error)) :
  respects sameConfig stage -> forall w, env (stage w).2 = env w.
Proof. intros H w. apply H. Qed.

Lemma updateAppLabel_env opts label w :
  env (updateAppLabel opts label w).2 = env w.
Proof.
  apply stage_env.
  by apply (respects_updateAppLabel sameConfig (fun w => conj eq_refl eq_refl)
              sameConfig_trans (fun _ => True)).
Qed.

Lemma updateAppLabel_items_succeeds label items :
  forall w,
  neverRefuses (env w) ->
  Forall (fun item => GetLabels item <> None /\
                      is_Some (applications (cluster w) !! metaName item)) items ->
  (updateAppLabel_items label items w).1 = Ret None.
Proof.
  induction items as [|item rest IH]; intros w Hnever Hitems; [done|].
  apply Forall_cons in Hitems as [[Hlabels [st Hst]] Hrest].
  cbn [updateAppLabel_items]. unfold mbind at 1, M_bind at 1, bind at 1.
  destruct (GetLabels item) as [m|] eqn:Hm; [|done].
  rewrite rangeAssign_union.
  unfold ResourceUpdate, update, mbind, M_bind, bind.
  rewrite Hnever. unfold applyUpdate. change (resource appGVR (cluster w))
    with (Some (applications (cluster w))).
  cbn [SetLabels metaName]. rewrite Hst. cbn [errOf].
  apply IH; [done|].
  eapply Forall_impl; [exact Hrest|]. intros it [Hl Hsome]. split; [done|].
  cbn. by apply lookup_insert_is_Some'; right.
Qed.

Lemma updateAppLabel_succeeds label w :
  neverRefuses (env w) -> (updateAppLabel listOptions label w).1 = Ret None.
Proof.
  intros Hnever. unfold updateAppLabel, ResourceList, mbind, M_bind, bind.
  rewrite Hnever.
  destruct (listObjects appGVR listOptions (cluster w)) as [items|e] eqn:Hl; [|done].
  cbn [errOf]. apply updateAppLabel_items_succeeds; [done|].
  apply Forall_forall. intros item Hin. split.
  - destruct (listed_carry_mark _ _ _ Hl Hin) as (m & -> & _). done.
  - apply (listObjects_app _ _ _ Hl) in Hin as [Hin _]. cbn. by rewrite Hin.
Qed.

Lemma checked_stage_then (stage : M (option error)) fmt msg {B} (k : M B) w :
  (stage w).1 = Ret None ->
  (err ← stage; fatalIf err fmt;; logf InfoLevel msg [];; k) w =
  k (set_trace (trace (stage w).2 ++ [EvLog InfoLevel msg []]) (stage w).2).
Proof.
  intros Hr. unfold mbind, M_bind, bind.
  destruct (stage w) as [r w1]. cbn in Hr. by subst r.
Qed.

Lemma checked_stage_last (stage : M (option error)) fmt msg w :
  (stage w).1 = Ret None ->
  (err ← stage; fatalIf err fmt;; logf InfoLevel msg []) w =
  (Ret tt, set_trace (trace (stage w).2 ++ [EvLog InfoLevel msg []]) (stage w).2).
Proof.
  intros Hr. unfold mbind, M_bind, bind.
  destruct (stage w) as [r w1]. cbn in Hr. by subst r.
Qed.

Lemma selects_mark labels :
  selects (LabelSelector listOptions) labels =
  bool_decide (labels ≫= (.!! categoryKey) = Some mark).
Proof. done. Qed.

Lemma store_mark_same labels :
  patched store labels ≫= (.!! categoryKey) = labels ≫= (.!! categoryKey).
Proof. destruct labels as [m|]; [|done]. cbn. by apply lookup_union_r. Qed.

(** X13.  Against a server that refuses no call the four stages all run and
    [reconcile] returns.  An application that carried the mark ends with
    the store label and the category [kubesphere-app-uncategorized] laid
    over its labels and with the status that [updateAppStatus] writes; any
    other application is as it was.  A version whose app-id label names a
    marked application ends with the status that [updateVersionStatus]
    writes; any other version is as it was. *)
Theorem reconcile_completes w :
  neverRefuses (env w) ->
  let run := reconcile w in
  let marked a :=
    exists st, applications (cluster w) !! a = Some st /\
               objLabels st ≫= (.!! categoryKey) = Some mark in
  run.1 = Ret tt /\
  (forall n st m,
     applications (cluster w) !! n = Some st -> objLabels st = Some m ->
     m !! categoryKey = Some mark ->
     exists hist,
       applications (cluster run.2) !! n =
       Some {| objLabels := Some (categoryName ∪ (store ∪ m));
               objStatus := activeAt (clock (env w) hist) (objStatus st) |}) /\
  (forall n st,
     applications (cluster w) !! n = Some st ->
     objLabels st ≫= (.!! categoryKey) <> Some mark ->
     applications (cluster run.2) !! n = Some st) /\
  (forall n v a,
     applicationversions (cluster w) !! n = Some v -> marked a ->
     objLabels v ≫= (.!! appIdKey) = Some a ->
     exists hist,
       applicationversions (cluster run.2) !! n =
       Some (touched adminActiveAt (clock (env w) hist) v)) /\
  (forall n v,
     applicationversions (cluster w) !! n = Some v ->
     (forall a, marked a -> objLabels v ≫= (.!! appIdKey) <> Some a) ->
     applicationversions (cluster run.2) !! n = Some v).
Proof.
  intros Hnever. cbv zeta.
  (* the status stage *)
  destruct (updateAppStatus_store listOptions w)
    as (He1 & Hv1 & Hany1 & Hout1 & Hin1 & Hr1).
  specialize (Hr1 Hnever). specialize (Hin1 Hr1).
  set (w1 := set_trace
               (trace (updateAppStatus listOptions w).2 ++
                [EvLog InfoLevel "[1/4] updateAppStatus completed successfully" []])
               (updateAppStatus listOptions w).2).
  assert (env w1 = env w) as Hw1 by exact He1.
  (* the store label *)
  assert (neverRefuses (env w1)) as Hnever1 by (by rewrite Hw1).
  pose proof (updateAppLabel_succeeds store w1 Hnever1) as Hr2.
  pose proof (updateAppLabel_env listOptions store w1) as He2.
  destruct (updateAppLabel_store listOptions store w1) as (Hv2 & Hany2 & Hout2 & Hin2).
  specialize (Hin2 Hr2).
  set (w2 := set_trace
               (trace (updateAppLabel listOptions store w1).2 ++
                [EvLog InfoLevel "[2/4] updateAppLabel store completed successfully" []])
               (updateAppLabel listOptions store w1).2).
  assert (env w2 = env w) as Hw2 by (etransitivity; [exact He2 | exact Hw1]).
  (* the version status *)
  assert (neverRefuses (env w2)) as Hnever2 by (by rewrite Hw2).
  destruct (updateVersionStatus_store listOptions w2)
    as (He3 & Ha3 & Hany3 & Hout3 & Hin3 & Hr3).
  specialize (Hr3 Hnever2). specialize (Hin3 Hr3).
  set (w3 := set_trace
               (trace (updateVersionStatus listOptions w2).2 ++
                [EvLog InfoLevel "[3/4] updateVersionStatus completed successfully" []])
               (updateVersionStatus listOptions w2).2).
  assert (env w3 = env w) as Hw3 by (etransitivity; [exact He3 | exact Hw2]).
  (* the category label *)
  assert (neverRefuses (env w3)) as Hnever3 by (by rewrite Hw3).
  pose proof (updateAppLabel_succeeds categoryName w3 Hnever3) as Hr4.
  destruct (updateAppLabel_store listOptions categoryName w3)
    as (Hv4 & Hany4 & Hout4 & Hin4).
  specialize (Hin4 Hr4).
  assert (reconcile w =
          (Ret tt,
           set_trace
             (trace (updateAppLabel listOptions categoryName w3).2 ++
              [EvLog InfoLevel
                 "[4/4] updateAppLabel categoryName completed successfully" []])
             (updateAppLabel listOptions categoryName w3).2)) as ->.
  { unfold reconcile.
    rewrite checked_stage_then by exact Hr1.
    rewrite checked_stage_then by exact Hr2.
    rewrite checked_stage_then by exact Hr3.
    by rewrite checked_stage_last by exact Hr4. }
  cbn [fst snd].
  change (cluster (set_trace _ ?x)) with (cluster x).
  assert (forall n st,
            applications (cluster w) !! n = Some st ->
            selects (LabelSelector listOptions) (objLabels st) = true ->
            exists hist,
              applications (cluster w2) !! n =
              Some (patchState store (touched activeAt (clock (env w) hist) st)))
    as Hmarked.
  { intros n st Hst Hsel. destruct (Hin1 n st Hst Hsel) as [hist H1].
    exists hist. by apply (Hin2 n _ H1). }
  assert (forall n st,
            applications (cluster w) !! n = Some st ->
            selects (LabelSelector listOptions) (objLabels st) = false ->
            applications (cluster w2) !! n = Some st) as Hother.
  { intros n st Hst Hsel. exact (Hout2 n st (Hout1 n st Hst Hsel) Hsel). }
  assert (forall a,
            (exists st, applications (cluster w2) !! a = Some st /\
                        selects (LabelSelector listOptions) (objLabels st) = true) <->
            (exists st, applications (cluster w) !! a = Some st /\
                        objLabels st ≫= (.!! categoryKey) = Some mark)) as Hsame.
  { intros a. split.
    - intros (st2 & Hst2 & Hsel2).
      destruct (applications (cluster w) !! a) as [st|] eqn:Hst.
      + exists st. split; [done|].
        destruct (selects (LabelSelector listOptions) (objLabels st)) eqn:Hsel.
        * rewrite selects_mark in Hsel. by apply bool_decide_eq_true in Hsel.
        * rewrite (Hother a st Hst Hsel) in Hst2. injection Hst2 as <-. congruence.
      + exfalso.
        assert (applications (cluster w1) !! a = None) as H1.
        { destruct (Hany1 a) as [H | [hist H]]; rewrite Hst in H; exact H. }
        destruct (Hany2 a) as [H | H]; rewrite H1 in H;
          change (applications (cluster w2)) with
            (applications (cluster (updateAppLabel listOptions store w1).2)) in Hst2;
          rewrite H in Hst2; done.
    - intros (st & Hst & Hcat).
      assert (selects (LabelSelector listOptions) (objLabels st) = true) as Hsel.
      { rewrite selects_mark. by apply bool_decide_eq_true. }
      destruct (Hmarked a st Hst Hsel) as [hist H2]. eexists. split; [exact H2|].
      rewrite selects_mark. apply bool_decide_eq_true. cbn [patchState objLabels].
      by rewrite store_mark_same. }
  assert (applicationversions (cluster w2) = applicationversions (cluster w))
    as Hversions.
  { etransitivity; [exact Hv2 | exact Hv1]. }
  split_and!.
  - done.
  - intros n st m Hst Hm Hcat.
    assert (selects (LabelSelector listOptions) (objLabels st) = true) as Hsel.
    { rewrite selects_mark. apply bool_decide_eq_true. by rewrite Hm. }
    destruct (Hmarked n st Hst Hsel) as [hist H2]. exists hist.
    rewrite (Hin4 n (patchState store (touched activeAt (clock (env w) hist) st))).
    + unfold patchState, touched. cbn. by rewrite Hm.
    + change (cluster w3) with (cluster (updateVersionStatus listOptions w2).2).
      by rewrite Ha3.
    + rewrite selects_mark. apply bool_decide_eq_true. cbn [patchState objLabels].
      rewrite store_mark_same. cbn. by rewrite Hm.
  - intros n st Hst Hcat.
    assert (selects (LabelSelector listOptions) (objLabels st) = false) as Hsel.
    { rewrite selects_mark. by apply bool_decide_eq_false. }
    apply Hout4; [|done].
    change (cluster w3) with (cluster (updateVersionStatus listOptions w2).2).
    rewrite Ha3. by apply Hother.
  - intros n v a Hv Ha Hid. rewrite Hv4.
    rewrite <- Hversions in Hv.
    destruct (Hin3 n v a Hv (proj2 (Hsame a) Ha) Hid) as [hist H3].
    exists hist. rewrite Hw2 in H3. exact H3.
  - intros n v Hv Hnone. rewrite Hv4. rewrite <- Hversions in Hv.
    apply (Hout3 n v Hv). intros a Ha. apply Hnone. by apply Hsame.
Qed.

Lemma reconcile_completes_witness :
  let w := sampleWorld (sampleEnv allOK (Loaded []) noFaults) 1 appsWithVersion in
  neverRefuses (env w) /\ (reconcile w).1 = Ret tt.
Proof.
  cbv zeta.
  assert (neverRefuses
            (env (sampleWorld (sampleEnv allOK (Loaded []) noFaults) 1
                    appsWithVersion))) as Hnever by (intros hist call; reflexivity).
  split; [exact Hnever|]. exact (proj1 (reconcile_completes _ Hnever)).
Defined.
